(** * govc_exporter: ancestry resolution and its per-scrape cache

    A shallow embedding of [collector/vc_vm.go] (the part shared by every
    collector: [Parents], [ParentsCache], [getParents], [getVMPool],
    [getVMHostSystem]) and of the label computation at the head of
    [virtualMachineCollector.Update].

    The vSphere API is an external collaborator.  It is represented by a
    snapshot of the inventory: a function giving, for an object reference,
    what a fetch of its [name] and [parent] comes back with: an error, the
    two properties, or no error and no content.
    Every call of [pc.RetrieveOne] and every operation on the package-level
    [cache] is logged, so that statements such as "performs no remote fetch"
    or "does not consult the cache" can be written down.

    One scrape runs sequentially; the interleaving of concurrent scrapes on
    the shared cache is outside this development, and so is the emission of
    metrics. *)

From stdpp Require Import gmap strings list fin_maps relations.

Open Scope string_scope.
Open Scope list_scope.
Open Scope nat_scope.

(** ** Data *)

(** [types.ManagedObjectReference]: a type tag and an opaque value.  Go
    compares the struct field by field, which is Leibniz equality here. *)
Record ManagedObjectReference : Type := mkMOR {
  Type' : string;
  Value : string;
}.

#[global] Instance ManagedObjectReference_eq_dec : EqDecision ManagedObjectReference.
Proof. solve_decision. Defined.

#[global] Instance ManagedObjectReference_countable : Countable ManagedObjectReference.
Proof.
  refine (inj_countable' (λ m, (Type' m, Value m)) (λ p, mkMOR p.1 p.2) _).
  by intros [].
Defined.

(** [mo.ManagedEntity], restricted to the fields the collectors read. *)
Record ManagedEntity : Type := mkEntity {
  Self : ManagedObjectReference;
  Name : string;
  Parent : option ManagedObjectReference;
}.

(** [mo.VirtualMachine]: the embedded [ManagedEntity], [ResourcePool] and
    [Summary.Runtime.Host]. *)
Record VirtualMachine : Type := mkVM {
  vmManagedEntity : ManagedEntity;
  ResourcePool : option ManagedObjectReference;
  Summary_Runtime_Host : option ManagedObjectReference;
}.

(** [type Parents struct { dc, cluster, spod string }] *)
Record Parents : Type := mkParents {
  dc : string;
  cluster : string;
  spod : string;
}.

#[global] Instance Parents_eq_dec : EqDecision Parents.
Proof. solve_decision. Defined.

(** Go's zero value of [Parents], what a map read of a missing key yields. *)
Definition zeroParents : Parents := mkParents "" "" "".

(** The three field assignments of the walk. *)
Definition set_dc (v : string) (res : Parents) : Parents :=
  mkParents v (cluster res) (spod res).
Definition set_cluster (v : string) (res : Parents) : Parents :=
  mkParents (dc res) v (spod res).
Definition set_spod (v : string) (res : Parents) : Parents :=
  mkParents (dc res) (cluster res) v.

(** What a [RetrieveOne] of [name] and [parent] comes back with.  [Fault]:
    an error is returned.  [Properties name parent]: no error, and the
    destination is overwritten as a whole with the object retrieved.
    [NoContent]: no error and an empty result, which leaves the destination
    as it was. *)
Inductive Answer : Type :=
| Fault
| NoContent
| Properties (name : string) (parent : option ManagedObjectReference).

(** The inventory as the remote API answers it. *)
Definition Inventory : Type := ManagedObjectReference → Answer.

(** Go's zero value of [mo.ManagedEntity], what [var entity
    mo.ManagedEntity] declares. *)
Definition zeroEntity : ManagedEntity := mkEntity (mkMOR "" "") "" None.

(** The destination after a fetch of [ref] that returned no error, [None]
    when it returned one. *)
Definition received (remote : Inventory) (ref : ManagedObjectReference)
    (dst : ManagedEntity) : option ManagedEntity :=
  match remote ref with
  | Fault => None
  | NoContent => Some dst
  | Properties name parent => Some (mkEntity ref name parent)
  end.

(** ** Effects

    What a call does besides returning: operations on the shared cache and
    remote property fetches, in the order they happen. *)
Inductive Event : Type :=
| EvCacheGet (mor : ManagedObjectReference)
| EvCacheAdd (mor : ManagedObjectReference) (val : Parents)
| EvCacheFlush
| EvRetrieveOne (mor : ManagedObjectReference) (ok : bool).

#[global] Instance Event_eq_dec : EqDecision Event.
Proof. solve_decision. Defined.

(** The remote fetches among a list of events. *)
Definition fetches (t : list Event) : list ManagedObjectReference :=
  omap (λ e, match e with EvRetrieveOne mor _ => Some mor | _ => None end) t.

(** The cache operations among a list of events. *)
Definition cache_ops (t : list Event) : list Event :=
  omap (λ e, match e with EvRetrieveOne _ _ => None | _ => Some e end) t.

(** The map held by [ParentsCache]. *)
Abbreviation CacheMap := (gmap ManagedObjectReference Parents).

(** A computation reads and writes the cache map, emits events, and either
    returns or runs out of fuel ([None]); only the walk's loop consumes
    fuel. *)
Definition M (A : Type) : Type := CacheMap → option (A * CacheMap * list Event).

Definition ret {A} (a : A) : M A := λ c, Some (a, c, []).

Definition bind {A B} (m : M A) (k : A → M B) : M B := λ c,
  match m c with
  | None => None
  | Some (a, c1, t1) =>
      match k a c1 with
      | None => None
      | Some (b, c2, t2) => Some (b, c2, t1 ++ t2)
      end
  end.

Notation "'let*' x ':=' m 'in' k" := (bind m (λ x, k))
  (at level 10, x name, m at level 100, k at level 200).

Fixpoint mapM {A B} (f : A → M B) (l : list A) : M (list B) :=
  match l with
  | [] => ret []
  | x :: l' => let* y := f x in let* ys := mapM f l' in ret (y :: ys)
  end.

(** ** ParentsCache

    The mutex only serialises the map access; one scrape is sequential, so
    each method is the map operation it guards. *)
Module ParentsCache.

(** [c.cache[mor] = val] *)
Definition Add (mor : ManagedObjectReference) (val : Parents) : M unit :=
  λ c, Some (tt, <[mor := val]> c, [EvCacheAdd mor val]).

(** [val, ok := c.cache[mor]] *)
Definition Get (mor : ManagedObjectReference) : M (Parents * bool) :=
  λ c, Some ((default zeroParents (c !! mor), bool_decide (is_Some (c !! mor))),
             c, [EvCacheGet mor]).

(** [c.cache = make(map[...]Parents)] *)
Definition Flush : M unit :=
  λ c, Some (tt, ∅, [EvCacheFlush]).

End ParentsCache.

Definition NewParentsCache : CacheMap := ∅.

(** ** Resolvers *)

(** How the [for] loop of [getParents] is left. *)
Inductive LoopExit : Type :=
| Break (res : Parents)
| ReturnError.

Section Resolvers.

Variable remote : Inventory.

(** [pc.RetrieveOne(ctx, ref, []string{"name", "parent"}, &entity)], the
    primitive of the property collector that retrieves one object's named
    properties.  The result is [None] when an error is returned and
    otherwise the content of [entity] after the call; the event records
    whether the error was nil. *)
Definition RetrieveOne (ref : ManagedObjectReference) (entity : ManagedEntity)
  : M (option ManagedEntity) :=
  λ c, match received remote ref entity with
       | Some entity => Some (Some entity, c, [EvRetrieveOne ref true])
       | None => Some (None, c, [EvRetrieveOne ref false])
       end.

(** The [for { ... }] of [getParents], one unit of fuel per iteration.
    [entity] is declared once before the loop, so an iteration whose fetch
    writes nothing reads what an earlier iteration left in it. *)
Fixpoint loop (fuel : nat) (cur : ManagedObjectReference) (res : Parents)
    (entity : ManagedEntity) : M LoopExit :=
  match fuel with
  | O => λ _, None
  | S fuel' =>
      let* fetched := RetrieveOne cur entity in
      match fetched with
      | None => ret ReturnError
      | Some entity =>
          let res := if decide (Type' cur = "StoragePod")
                     then set_spod (Name entity) res else res in
          let res := if decide (Type' cur = "ClusterComputeResource")
                     then set_cluster (Name entity) res else res in
          if decide (Type' cur = "Datacenter")
          then ret (Break (set_dc (Name entity) res))
          else match Parent entity with
               | None => ret (Break res)
               | Some parent => loop fuel' parent res entity
               end
      end
  end.

Definition getParents (fuel : nat) (me : ManagedEntity) : M Parents :=
  let entity := zeroEntity in
  let res := mkParents "NONE" "NONE" "NONE" in
  match Parent me with
  | None => ret res
  | Some parent =>
      let* got := ParentsCache.Get parent in
      let '(cached, ok) := got in
      if ok : bool then ret cached
      else
        let* exit := loop fuel parent res entity in
        match exit with
        | ReturnError => ret (mkParents "ERROR" "ERROR" "ERROR")
        | Break res =>
            let* _ := ParentsCache.Add parent res in
            ret res
        end
  end.

Definition getVMPool (me : VirtualMachine) : M (option ManagedEntity) :=
  match ResourcePool me with
  | None => ret None
  | Some pool =>
      let entity := zeroEntity in
      let* fetched := RetrieveOne pool entity in
      match fetched with
      | None => ret None
      | Some entity => ret (Some entity)
      end
  end.

Definition getVMHostSystem (me : VirtualMachine) : M (option ManagedEntity) :=
  match Summary_Runtime_Host me with
  | None => ret None
  | Some host =>
      let entity := zeroEntity in
      let* fetched := RetrieveOne host entity in
      match fetched with
      | None => ret None
      | Some entity => ret (Some entity)
      end
  end.

(** The labels [virtualMachineCollector.Update] derives from the three
    resolvers for one item: [parents], [poolName], [esxName]. *)
Record VMLabels : Type := mkVMLabels {
  parents : Parents;
  poolName : string;
  esxName : string;
}.

Definition vmLabels (fuel : nat) (item : VirtualMachine) : M VMLabels :=
  let* pool := getVMPool item in
  let* resolved :=
    match pool with
    | None =>
        let* parents := getParents fuel (vmManagedEntity item) in
        ret (parents, "NONE")
    | Some pool =>
        let* parents := getParents fuel pool in
        ret (parents, Name pool)
    end in
  let* host := getVMHostSystem item in
  let esxName := match host with
                 | None => "NONE"
                 | Some host => Name host
                 end in
  ret (mkVMLabels resolved.1 resolved.2 esxName).

(** [virtualMachineCollector.Update] after a successful connect and bulk
    retrieve: flush the cache, then label every item. *)
Definition vmUpdate (fuel : nat) (items : list VirtualMachine) : M (list VMLabels) :=
  let* _ := ParentsCache.Flush in
  mapM (vmLabels fuel) items.

(** [esxCollector.Update] likewise: every host resolves its own ancestry. *)
Definition esxUpdate (fuel : nat) (hss : list ManagedEntity) : M (list Parents) :=
  let* _ := ParentsCache.Flush in
  mapM (getParents fuel) hss.

End Resolvers.

(** ** Describing inventories

    The predicates below speak about the shape of the inventory a walk runs
    over; they are used to state which walks are meant. *)

(** What one loop iteration records for a node that is not a datacenter. *)
Definition visit (node : ManagedObjectReference * string) (res : Parents) : Parents :=
  let res := if decide (Type' node.1 = "StoragePod")
             then set_spod node.2 res else res in
  if decide (Type' node.1 = "ClusterComputeResource")
  then set_cluster node.2 res else res.

Definition visit_all (vs : list (ManagedObjectReference * string)) (res : Parents)
  : Parents :=
  foldl (λ acc node, visit node acc) res vs.

(** [climbs remote cur vs top]: from [cur] the walk is answered at every node
    of [vs] (with the node's name), none of them a datacenter, each naming a
    parent, and so arrives at [top]. *)
Inductive climbs (remote : Inventory)
  : ManagedObjectReference → list (ManagedObjectReference * string) →
    ManagedObjectReference → Prop :=
| climbs_here cur : climbs remote cur [] cur
| climbs_up cur name parent vs top :
    remote cur = Properties name (Some parent) →
    Type' cur ≠ "Datacenter" →
    climbs remote parent vs top →
    climbs remote cur ((cur, name) :: vs) top.

(** The loop as a relation, without fuel: [walks remote cur res entity exit
    t] when the loop entered at [cur] with the record [res] and with
    [entity] as left by what came before leaves through [exit] after the
    fetches [t]. *)
Inductive walks (remote : Inventory)
  : ManagedObjectReference → Parents → ManagedEntity → LoopExit →
    list Event → Prop :=
| walks_fail cur res entity :
    received remote cur entity = None →
    walks remote cur res entity ReturnError [EvRetrieveOne cur false]
| walks_dc cur res entity entity' :
    received remote cur entity = Some entity' →
    Type' cur = "Datacenter" →
    walks remote cur res entity (Break (set_dc (Name entity') res))
      [EvRetrieveOne cur true]
| walks_top cur res entity entity' :
    received remote cur entity = Some entity' →
    Type' cur ≠ "Datacenter" →
    Parent entity' = None →
    walks remote cur res entity (Break (visit (cur, Name entity') res))
      [EvRetrieveOne cur true]
| walks_up cur res entity entity' parent exit t :
    received remote cur entity = Some entity' →
    Type' cur ≠ "Datacenter" →
    Parent entity' = Some parent →
    walks remote parent (visit (cur, Name entity') res) entity' exit t →
    walks remote cur res entity exit (EvRetrieveOne cur true :: t).

(** The record a completed walk ends with, read off the path it took: the
    nodes climbed through and the node it stopped at. *)
Definition final_record (vs : list (ManagedObjectReference * string))
    (top : ManagedObjectReference * string) : Parents :=
  let res := visit_all (vs ++ [top]) (mkParents "NONE" "NONE" "NONE") in
  if decide (Type' top.1 = "Datacenter") then set_dc top.2 res else res.

(** [walk_edge remote parent cur]: the loop, being at [cur], goes on to
    [parent]. *)
Definition walk_edge (remote : Inventory) (parent cur : ManagedObjectReference) : Prop :=
  Type' cur ≠ "Datacenter" ∧ ∃ name, remote cur = Properties name (Some parent).

(** [parent_of remote parent cur]: the inventory gives [parent] as the
    parent of [cur]. *)
Definition parent_of (remote : Inventory) (parent cur : ManagedObjectReference) : Prop :=
  ∃ name, remote cur = Properties name (Some parent).

(** A set of nodes the walk cannot leave: none is a datacenter, each is
    answered and names a parent inside the set.  A cycle of parent pointers
    without a datacenter on it is such a set, and so is any path into one. *)
Definition trapped (remote : Inventory) (S : ManagedObjectReference → Prop) : Prop :=
  ∀ n, S n → Type' n ≠ "Datacenter" ∧
             ∃ name parent, remote n = Properties name (Some parent) ∧ S parent.

(** The events of successful fetches along a list of visited nodes. *)
Definition fetched_ok (vs : list (ManagedObjectReference * string)) : list Event :=
  map (λ node, EvRetrieveOne node.1 true) vs.

(** One scrape after its flush: the cache moves only through resolver calls,
    against whatever the remote side answers at the time. *)
Inductive scrape_step : relation CacheMap :=
| step_getParents remote fuel me c res c' t :
    getParents remote fuel me c = Some (res, c', t) → scrape_step c c'
| step_vmLabels remote fuel item c labels c' t :
    vmLabels remote fuel item c = Some (labels, c', t) → scrape_step c c'.

(** ** Concrete inventories *)

Definition P1 : ManagedObjectReference := mkMOR "ResourcePool" "resgroup-8".
Definition P2 : ManagedObjectReference := mkMOR "ClusterComputeResource" "domain-c7".
Definition P3 : ManagedObjectReference := mkMOR "Datacenter" "datacenter-2".
Definition rootFolder : ManagedObjectReference := mkMOR "Folder" "group-d1".
Definition podRef : ManagedObjectReference := mkMOR "StoragePod" "group-p11".
Definition vmFolder : ManagedObjectReference := mkMOR "Folder" "group-v3".
Definition loopA : ManagedObjectReference := mkMOR "Folder" "group-v20".
Definition loopB : ManagedObjectReference := mkMOR "Folder" "group-v21".

(** An inventory given as a finite table: the objects listed answer with
    their properties, the fetch of any other fails. *)
Definition table (rows : list (ManagedObjectReference * (string * option ManagedObjectReference)))
  : Inventory :=
  λ ref, match List.find (λ row, bool_decide (row.1 = ref)) rows with
         | Some row => Properties row.2.1 row.2.2
         | None => Fault
         end.

(** P1 (resource pool) under P2 (cluster "ClusterX") under P3 (datacenter
    "DC1"), which has no parent. *)
Definition scenario : Inventory :=
  table [ (P1, ("Resources", Some P2));
          (P2, ("ClusterX", Some P3));
          (P3, ("DC1", None)) ].

(** The same tree as vCenter reports it: the datacenter sits in the root
    folder, VMs sit in the datacenter's VM folder, and a storage pod hangs
    below the cluster. *)
Definition rooted : Inventory :=
  table [ (P1, ("Resources", Some P2));
          (podRef, ("PodA", Some P2));
          (P2, ("ClusterX", Some P3));
          (vmFolder, ("vm", Some P3));
          (P3, ("DC1", Some rootFolder));
          (rootFolder, ("Datacenters", None)) ].

(** The scenario with the datacenter unreachable. *)
Definition broken : Inventory :=
  table [ (P1, ("Resources", Some P2));
          (P2, ("ClusterX", Some P3)) ].

(** The scenario with a cluster whose fetch returns no error and no
    content. *)
Definition muted : Inventory :=
  λ ref, if decide (ref = P2) then NoContent else scenario ref.

(** Nothing answers. *)
Definition unreachable : Inventory := λ _, Fault.

(** Two folders naming each other as parent. *)
Definition cyclic : Inventory :=
  table [ (loopA, ("a", Some loopB));
          (loopB, ("b", Some loopA)) ].

Definition objA : ManagedEntity := mkEntity (mkMOR "HostSystem" "host-10") "esx-a" (Some P1).
Definition objB : ManagedEntity := mkEntity (mkMOR "Folder" "group-d1") "Datacenters" None.
Definition objC : ManagedEntity := mkEntity (mkMOR "HostSystem" "host-11") "esx-c" (Some P1).
Definition objD : ManagedEntity := mkEntity (mkMOR "HostSystem" "host-12") "esx-d" (Some P1).
Definition objPod : ManagedEntity := mkEntity (mkMOR "Datastore" "datastore-15") "ds1" (Some podRef).
Definition objLoop : ManagedEntity := mkEntity (mkMOR "VirtualMachine" "vm-30") "lost" (Some loopA).

Definition vmPooled : VirtualMachine :=
  mkVM (mkEntity (mkMOR "VirtualMachine" "vm-40") "web" (Some vmFolder))
       (Some P1) None.
Definition vmNoPool : VirtualMachine :=
  mkVM (mkEntity (mkMOR "VirtualMachine" "vm-41") "template" (Some vmFolder))
       None None.

Definition noneParents : Parents := mkParents "NONE" "NONE" "NONE".
Definition errorParents : Parents := mkParents "ERROR" "ERROR" "ERROR".
Definition scenarioParents : Parents := mkParents "DC1" "ClusterX" "NONE".

(** ** Readings that are put to the test *)

(** [Add] as insert-if-absent: an existing entry is left alone. *)
Definition Add_keeps_existing : Prop :=
  ∀ mor val (c : CacheMap),
    is_Some (c !! mor) →
    ∃ t, ParentsCache.Add mor val c = Some (tt, c, t).

(** Every second resolution under the same parent is answered from the
    cache with the first one's record, whatever the first one did. *)
Definition every_repeat_hits : Prop :=
  ∀ remote fuel me1 me2 parent (c : CacheMap) res c1 t1,
    Parent me1 = Some parent →
    Parent me2 = Some parent →
    getParents remote fuel me1 c = Some (res, c1, t1) →
    ∃ t2, getParents remote fuel me2 c1 = Some (res, c1, t2) ∧ fetches t2 = [].

(** Resolving C then D in the scenario costs two fetches. *)
Definition scenario_costs_two_fetches : Prop :=
  ∃ fuel c' t,
    esxUpdate scenario fuel [objC; objD] ∅
      = Some ([scenarioParents; scenarioParents], c', t) ∧
    length (fetches t) = 2.

(** ** The collectors' Update

    [apiConnect] and [apiRetrieve] are calls into the remote API; what they
    come back with is an input here. *)
Inductive ApiOutcome (A : Type) : Type :=
| ConnectError (err : string)
| RetrieveError (err : string)
| Retrieved (items : list A).

Arguments ConnectError {A} err.
Arguments RetrieveError {A} err.
Arguments Retrieved {A} items.

(** [esxCollector.Update], as far as the ancestry goes: the returned [err]
    ([None] is nil) and, for every host, the record its label values are
    taken from.  The storage pod and datastore collectors have the same
    body. *)
Definition esxCollector_Update (remote : Inventory) (fuel : nat)
    (api : ApiOutcome ManagedEntity) : M (option string * list Parents) :=
  let* _ := ParentsCache.Flush in
  match api with
  | ConnectError err => ret (Some err, [])
  | RetrieveError err => ret (Some err, [])
  | Retrieved hss =>
      let* rows := mapM (getParents remote fuel) hss in
      ret (None, rows)
  end.

(** A Go call returns or panics. *)
Inductive Completion (A : Type) : Type :=
| Returned (a : A)
| Panicked.

Arguments Returned {A} a.
Arguments Panicked {A}.

(** [types.ResourcePoolSummary]: [QuickStats] tells whether
    [summary.QuickStats] is non-nil. *)
Record ResourcePoolSummary : Type := mkRPSummary {
  rpsName : string;
  QuickStats : bool;
}.

(** [mo.ResourcePool] as the resource pool collector reads it.  [Summary] is
    an interface value: [None] when it is nil, in which case calling a
    method on it panics, and otherwise what [GetResourcePoolSummary()]
    returns, a pointer that may be nil. *)
Record ResourcePoolItem : Type := mkRPItem {
  rpManagedEntity : ManagedEntity;
  rpSummary : option (option ResourcePoolSummary);
}.

(** The [for _, item := range items] of [resourcePoolCollector.Update]:
    the label values [vc, tmp.dc, name] of the samples sent, and whether the
    loop was left by a panic. *)
Fixpoint resourcePoolLoop (remote : Inventory) (fuel : nat) (vc : string)
    (items : list ResourcePoolItem) : M (list (list string) * bool) :=
  match items with
  | [] => ret ([], false)
  | item :: items' =>
      match rpSummary item with
      | None => ret ([], true)
      | Some summary =>
          match summary with
          | None => resourcePoolLoop remote fuel vc items'
          | Some summary =>
              if negb (QuickStats summary)
              then resourcePoolLoop remote fuel vc items'
              else
                let name := rpsName summary in
                let* tmp := getParents remote fuel (rpManagedEntity item) in
                let labels := [vc; dc tmp; name] in
                let* rest := resourcePoolLoop remote fuel vc items' in
                ret (labels :: rest.1, rest.2)
          end
      end
  end.

(** [resourcePoolCollector.Update]: how it ends (with which [err], or by a
    panic) and the label values of the samples sent. *)
Definition resourcePoolCollector_Update (remote : Inventory) (fuel : nat)
    (vc : string) (api : ApiOutcome ResourcePoolItem)
  : M (Completion (option string) * list (list string)) :=
  let* _ := ParentsCache.Flush in
  match api with
  | ConnectError err => ret (Returned (Some err), [])
  | RetrieveError err => ret (Returned (Some err), [])
  | Retrieved items =>
      let* sent := resourcePoolLoop remote fuel vc items in
      ret (if sent.2 : bool then Panicked else Returned None, sent.1)
  end.

(** Whether the loop sends samples for an item, and whether it passes over
    it. *)
Definition has_stats (item : ResourcePoolItem) : bool :=
  match rpSummary item with
  | Some (Some summary) => QuickStats summary
  | _ => false
  end.

Definition skipped (item : ResourcePoolItem) : bool :=
  match rpSummary item with
  | Some None => true
  | Some (Some summary) => negb (QuickStats summary)
  | None => false
  end.

(** ** The VM collector's device and network helpers *)

(** [strings.TrimPrefix]: [s] without the leading [prefix], or [s] itself
    when it does not start with [prefix]. *)
Fixpoint strip_prefix (prefix s : string) : option string :=
  match prefix, s with
  | EmptyString, _ => Some s
  | String a prefix', String b s' =>
      if Ascii.eqb a b then strip_prefix prefix' s' else None
  | String _ _, EmptyString => None
  end.

Definition TrimPrefix (s prefix : string) : string :=
  default s (strip_prefix prefix s).

(** [types.VirtualDeviceConnectInfo] *)
Record VirtualDeviceConnectInfo : Type := mkConnectInfo {
  Status : string;
  Connected : bool;
}.

(** The backing of a virtual disk: [*types.VirtualDiskFlatVer2BackingInfo]
    or anything else (another backing type, or none). *)
Inductive DiskBacking : Type :=
| FlatVer2BackingInfo (FileName : string)
| OtherBacking.

(** The dynamic type of an element of [vm.Config.Hardware.Device], with the
    fields read from it. *)
Inductive DeviceKind : Type :=
| EthernetCard (MacAddress : string)
| VirtualDisk (Backing : DiskBacking) (CapacityInBytes : Z)
| OtherDevice.

(** A device: its kind, [devices.Name(dev)], [devices.TypeName(dev)] and
    [dev.GetVirtualDevice().Connectable]. *)
Record VirtualDevice : Type := mkDevice {
  kind : DeviceKind;
  deviceName : string;
  deviceTypeName : string;
  Connectable : option VirtualDeviceConnectInfo;
}.

Record EthernetDevice : Type := mkEthernetDevice {
  ed_name : string;
  ed_typeName : string;
  ed_mac : string;
  ed_status : string;
  ed_connected : bool;
}.

(** The [for _, dev := range devices] of [GetEthernetDevices]. *)
Fixpoint ethernetDevicesLoop (devices : list VirtualDevice) : list EthernetDevice :=
  match devices with
  | [] => []
  | dev :: devices' =>
      match kind dev with
      | EthernetCard MacAddress =>
          let status := "unknown" in
          let connected := false in
          let name := deviceName dev in
          let typeName := TrimPrefix (deviceTypeName dev) "Virtual" in
          let mac := MacAddress in
          let '(status, connected) :=
            match Connectable dev with
            | Some ca => (Status ca, Connected ca)
            | None => (status, connected)
            end in
          mkEthernetDevice name typeName mac status connected
            :: ethernetDevicesLoop devices'
      | _ => ethernetDevicesLoop devices'
      end
  end.

(** [GetEthernetDevices]; [Config] is [vm.Config], a pointer: [None] when it
    is nil, otherwise its [Hardware.Device].  Reading the devices of a VM
    without configuration info panics ([None]). *)
Definition GetEthernetDevices (Config : option (list VirtualDevice))
  : option (list EthernetDevice) :=
  match Config with
  | None => None
  | Some devices => Some (ethernetDevicesLoop devices)
  end.

Record Disk : Type := mkDisk {
  vmdk : string;
  capacity : Z;
}.

Definition isVirtualDisk (dev : VirtualDevice) : bool :=
  match kind dev with
  | VirtualDisk _ _ => true
  | _ => false
  end.

(** [SelectByType] at the type of virtual disks. *)
Definition SelectVirtualDisks (devices : list VirtualDevice) : list VirtualDevice :=
  List.filter isVirtualDisk devices.

(** The loop of [GetDisks].  The two type assertions have no [ok] result:
    a device that is not a disk, or a disk whose backing is not a
    [VirtualDiskFlatVer2BackingInfo], makes the function panic ([None]). *)
Fixpoint disksLoop (disks : list VirtualDevice) : option (list Disk) :=
  match disks with
  | [] => Some []
  | d :: disks' =>
      match kind d with
      | VirtualDisk (FlatVer2BackingInfo FileName) CapacityInBytes =>
          match disksLoop disks' with
          | Some res => Some (mkDisk FileName CapacityInBytes :: res)
          | None => None
          end
      | _ => None
      end
  end.

(** [GetDisks]; [Config] as for [GetEthernetDevices]: a VM without
    configuration info makes it panic as well. *)
Definition GetDisks (Config : option (list VirtualDevice)) : option (list Disk) :=
  match Config with
  | None => None
  | Some devices => disksLoop (SelectVirtualDisks devices)
  end.

(** [types.GuestNicInfo], an element of [vm.Guest.Net]. *)
Record GuestNicInfo : Type := mkGuestNic {
  gn_Network : string;
  gn_MacAddress : string;
  gn_IpAddress : list string;
  gn_Connected : bool;
}.

Record Network : Type := mkNetwork {
  network : string;
  mac : string;
  ip : list string;
  connected : bool;
}.

(** [GetNetworks]; [Guest] is [vm.Guest], a pointer: [None] when it is nil,
    otherwise its [Net].  Reading the NICs of a VM without guest info panics
    ([None]). *)
Definition GetNetworks (Guest : option (list GuestNicInfo)) : option (list Network) :=
  match Guest with
  | None => None
  | Some guestNet =>
      Some (map (λ net, mkNetwork (gn_Network net) (gn_MacAddress net)
                                  (gn_IpAddress net) (gn_Connected net)) guestNet)
  end.

(** The conversion [float64(x)] of an [int64]: the value of the nearest
    double, ties to even.  Up to 2^53 in absolute value it is [x] itself;
    above, the 53 leading bits are kept and the rest is rounded. *)
Definition float64_of_int64 (x : Z) : Z :=
  let a := Z.abs x in
  let n := Z.log2 a in
  if (n <? 53)%Z then x
  else
    let sh := (n - 52)%Z in
    let q := Z.shiftr a sh in
    let r := Z.land a (Z.ones sh) in
    let half := Z.shiftl 1 (sh - 1) in
    let q := if (half <? r)%Z || ((r =? half)%Z && Z.odd q)
             then (q + 1)%Z else q in
    (Z.sgn x * Z.shiftl q sh)%Z.

(** [b2f]; the two results 1.0 and 0.0 are written 1 and 0. *)
Definition b2f (val : bool) : Z := if val then 1%Z else 0%Z.

(** The label names of the VM collector's descriptors, from
    [NewVirtualMachineCollector]; [isec] is [*useIsecSpecifics]. *)
Definition vmLabelNames (isec : bool) : list string :=
  let labels := ["vc"; "dc"; "cluster"; "esx"; "pool";
                 "name"; "hostname"; "guestfullname";
                 "power_state"; "overall_status";
                 "tools_status"; "tools_version"] in
  if isec then labels ++ ["crit"; "responsable"; "service"] else labels.

Definition vmNetworkLabelNames (isec : bool) : list string :=
  vmLabelNames isec ++ ["network"; "mac"; "ip"].
Definition vmEthernetLabelNames (isec : bool) : list string :=
  vmLabelNames isec ++ ["driver_model"; "driver_mac"; "driver_status"].
Definition vmDiskLabelNames (isec : bool) : list string :=
  vmLabelNames isec ++ ["vmdk"].

(** The strings [Update] reads off a VM for its labels, besides the
    resolved ones. *)
Record VMSummary : Type := mkVMSummary {
  vs_Name : string;
  vs_HostName : string;
  vs_GuestFullName : string;
  vs_PowerState : string;
  vs_OverallStatus : string;
  vs_ToolsStatus : string;
  vs_ToolsVersion : string;
}.

(** [IsecAnnotation], as [GetIsecAnnotation] returns it. *)
Record IsecAnnotation : Type := mkIsecAnnotation {
  Criticality : string;
  Responsable : string;
  Service : string;
}.

(** [labelsValues] of [virtualMachineCollector.Update]. *)
Definition vmLabelsValues (isec : bool) (vc : string) (resolved : VMLabels)
    (item : VMSummary) (annotation : IsecAnnotation) : list string :=
  let labelsValues :=
    [vc; dc (parents resolved); cluster (parents resolved);
     esxName resolved; poolName resolved;
     vs_Name item; vs_HostName item; vs_GuestFullName item;
     vs_PowerState item; vs_OverallStatus item;
     vs_ToolsStatus item; vs_ToolsVersion item] in
  if isec
  then labelsValues ++ [Criticality annotation; Responsable annotation;
                        Service annotation]
  else labelsValues.

(** The three families of per-device samples of one VM: value and label
    values of every [ethernet_driver_connected], [network_connected] and
    [disk_capacity_bytes] sample, in the order they are sent. *)
Definition ethernetSamples (labelsValues : list string)
    (edevices : list EthernetDevice) : list (Z * list string) :=
  map (λ edev, (b2f (ed_connected edev),
                labelsValues ++ [ed_typeName edev; ed_mac edev; ed_status edev]))
      edevices.

Definition networkSamples (labelsValues : list string)
    (networks : list Network) : list (Z * list string) :=
  flat_map (λ net,
    map (λ ip, (b2f (connected net), labelsValues ++ [network net; mac net; ip]))
        (ip net)) networks.

Definition diskSamples (labelsValues : list string)
    (disks : list Disk) : list (Z * list string) :=
  map (λ disk, (float64_of_int64 (capacity disk), labelsValues ++ [vmdk disk]))
      disks.

(** ** Describing a scrape *)

(** The keys inserted into the cache among a list of events. *)
Definition added (t : list Event) : list ManagedObjectReference :=
  omap (λ e, match e with EvCacheAdd mor _ => Some mor | _ => None end) t.

(** Every entry of the cache is the record of a walk from its key that
    completed within [fuel] fetches. *)
Definition cache_sound (remote : Inventory) (fuel : nat) (c : CacheMap) : Prop :=
  ∀ p r, c !! p = Some r →
         ∃ t, walks remote p (mkParents "NONE" "NONE" "NONE") zeroEntity (Break r) t ∧
              length t ≤ fuel.

(** What [getParents] returns for [me] when it starts from an empty cache. *)
Definition uncached (remote : Inventory) (fuel : nat) (me : ManagedEntity)
    (r : Parents) : Prop :=
  ∃ (c : CacheMap) t, getParents remote fuel me ∅ = Some (r, c, t).

(** The record of an object whose parent cannot be fetched. *)
Definition unresolved (me : ManagedEntity) : Parents :=
  match Parent me with
  | Some _ => mkParents "ERROR" "ERROR" "ERROR"
  | None => mkParents "NONE" "NONE" "NONE"
  end.

(** A (made-up) inventory with a cluster nested in a cluster, and a resource
    pool chain that ends in a folder without parent. *)
Definition innerCluster : ManagedObjectReference :=
  mkMOR "ClusterComputeResource" "domain-c5".
Definition strayFolder : ManagedObjectReference := mkMOR "Folder" "group-h4".

Definition nested : Inventory :=
  table [ (P1, ("Resources", Some innerCluster));
          (innerCluster, ("Inner", Some P2));
          (P2, ("ClusterX", Some strayFolder));
          (strayFolder, ("host", None)) ].

(** A VM that runs on a host, and one whose host cannot be fetched.  The
    host is a child of the cluster. *)
Definition hostRef : ManagedObjectReference := mkMOR "HostSystem" "host-21".
Definition lostHost : ManagedObjectReference := mkMOR "HostSystem" "host-99".

Definition hosted : Inventory :=
  table [ (hostRef, ("esx-21.example.org", Some P2));
          (P1, ("Resources", Some P2));
          (P2, ("ClusterX", Some P3));
          (vmFolder, ("vm", Some P3));
          (P3, ("DC1", Some rootFolder));
          (rootFolder, ("Datacenters", None)) ].

Definition vmOnHost : VirtualMachine :=
  mkVM (mkEntity (mkMOR "VirtualMachine" "vm-50") "db" (Some vmFolder))
       (Some P1) (Some hostRef).
Definition vmLostHost : VirtualMachine :=
  mkVM (mkEntity (mkMOR "VirtualMachine" "vm-51") "cache" (Some vmFolder))
       (Some P1) (Some lostHost).

(** The scenario next to the two folders naming each other: the skipped
    pools [poolNoStats] and [poolNilSummary] sit in the cycle. *)
Definition cyclic_scenario : Inventory :=
  table [ (P1, ("Resources", Some P2));
          (P2, ("ClusterX", Some P3));
          (P3, ("DC1", None));
          (loopA, ("a", Some loopB));
          (loopB, ("b", Some loopA)) ].

(** ** More concrete inputs *)

Definition objUnderCluster : ManagedEntity :=
  mkEntity (mkMOR "HostSystem" "host-13") "esx-e" (Some P2).

Definition staleCache : CacheMap := {[P1 := mkParents "OLD" "OLD" "OLD"]}.

Definition poolWithStats : ResourcePoolItem :=
  mkRPItem (mkEntity (mkMOR "ResourcePool" "resgroup-9") "prod" (Some P1))
           (Some (Some (mkRPSummary "prod" true))).
Definition poolNoStats : ResourcePoolItem :=
  mkRPItem (mkEntity (mkMOR "ResourcePool" "resgroup-10") "new" (Some loopA))
           (Some (Some (mkRPSummary "new" false))).
Definition poolNilSummary : ResourcePoolItem :=
  mkRPItem (mkEntity (mkMOR "ResourcePool" "resgroup-11") "gone" (Some loopA))
           (Some None).
Definition poolUnsetSummary : ResourcePoolItem :=
  mkRPItem (mkEntity (mkMOR "ResourcePool" "resgroup-12") "bare" (Some P1))
           None.

Definition nicCard : VirtualDevice :=
  mkDevice (EthernetCard "00:50:56:aa:bb:cc") "ethernet-0" "VirtualVmxnet3"
           (Some (mkConnectInfo "ok" true)).
Definition nicBare : VirtualDevice :=
  mkDevice (EthernetCard "00:50:56:aa:bb:cd") "ethernet-1" "VirtualE1000" None.
Definition flatDisk : VirtualDevice :=
  mkDevice (VirtualDisk (FlatVer2BackingInfo "[ds1] web/web.vmdk") 1073741824)
           "disk-1000-0" "VirtualDisk" None.
Definition rawDisk : VirtualDevice :=
  mkDevice (VirtualDisk OtherBacking 1073741824) "disk-1000-1" "VirtualDisk" None.
Definition cdrom : VirtualDevice :=
  mkDevice OtherDevice "cdrom-3000" "VirtualCdrom"
           (Some (mkConnectInfo "untried" false)).

(** * Properties *)

(** Closed equations between runs are settled by evaluation. *)
Ltac vm_refl :=
  lazymatch goal with
  | |- ?x = ?y => vm_cast_no_check (eq_refl y)
  end.

(** ** The effect structure *)

Lemma bind_Some {A B} (m : M A) (k : A → M B) c b c2 t :
  bind m k c = Some (b, c2, t) ↔
  ∃ a c1 t1 t2, m c = Some (a, c1, t1) ∧ k a c1 = Some (b, c2, t2) ∧ t = t1 ++ t2.
Proof.
  unfold bind. split.
  - destruct (m c) as [[[a c1] t1]|]; [|done].
    destruct (k a c1) as [[[b' c2'] t2]|] eqn:Hk; [|done].
    intros [= -> -> <-]. by exists a, c1, t1, t2.
  - intros (a & c1 & t1 & t2 & -> & -> & ->). done.
Qed.

Lemma bind_None_l {A B} (m : M A) (k : A → M B) c :
  m c = None → bind m k c = None.
Proof. unfold bind. by intros ->. Qed.

Lemma bind_step {A B} (m : M A) (k : A → M B) c a c1 t1 :
  m c = Some (a, c1, t1) →
  bind m k c = match k a c1 with
               | None => None
               | Some (b, c2, t2) => Some (b, c2, t1 ++ t2)
               end.
Proof. unfold bind. by intros ->. Qed.

Lemma fetches_app t1 t2 : fetches (t1 ++ t2) = fetches t1 ++ fetches t2.
Proof. unfold fetches. apply omap_app. Qed.

Lemma cache_ops_app t1 t2 : cache_ops (t1 ++ t2) = cache_ops t1 ++ cache_ops t2.
Proof. unfold cache_ops. apply omap_app. Qed.

(** ** ParentsCache *)

Lemma Get_hit mor val (c : CacheMap) :
  c !! mor = Some val →
  ParentsCache.Get mor c = Some ((val, true), c, [EvCacheGet mor]).
Proof.
  intros H. unfold ParentsCache.Get. by rewrite H.
Qed.

Lemma Get_miss mor (c : CacheMap) :
  c !! mor = None →
  ParentsCache.Get mor c = Some ((zeroParents, false), c, [EvCacheGet mor]).
Proof.
  intros H. unfold ParentsCache.Get. by rewrite H.
Qed.

(** C5, refuted as stated: adding a second record under a key that is
    already present replaces the stored record, it is not ignored. *)
Lemma Add_overwrites_existing : ¬ Add_keeps_existing.
Proof.
  intros H.
  destruct (H P1 errorParents {[P1 := scenarioParents]}) as [t Ht].
  { rewrite lookup_singleton_eq. by eexists. }
  unfold ParentsCache.Add in Ht.
  apply (f_equal (λ o : option (unit * CacheMap * list Event),
                    match o with Some (_, m, _) => m !! P1 | None => None end)) in Ht.
  cbv beta iota in Ht.
  rewrite lookup_insert_eq, lookup_singleton_eq in Ht. discriminate.
Qed.

(** C5, as the code has it: [ParentsCache.Add] stores the record whether or
    not the key is present.  Afterwards the key maps to the new record (an
    earlier record under that key is replaced), [Get] of the key finds the
    new record, and every other key is as before. *)
Theorem Add_stores_unconditionally mor val (c : CacheMap) :
  ∃ c' : CacheMap,
    ParentsCache.Add mor val c = Some (tt, c', [EvCacheAdd mor val]) ∧
    ParentsCache.Get mor c' = Some ((val, true), c', [EvCacheGet mor]) ∧
    ∀ mor', c' !! mor' = if decide (mor' = mor) then Some val else c !! mor'.
Proof.
  exists (<[mor := val]> c). split; [done|]. split.
  - apply Get_hit, lookup_insert_eq.
  - intros mor'. rewrite lookup_insert. repeat case_decide; congruence.
Qed.

(** ** The walk *)

Section Walk.

Variable remote : Inventory.

Lemma received_fault ref entity :
  remote ref = Fault → received remote ref entity = None.
Proof. unfold received. by intros ->. Qed.

Lemma received_properties ref entity name parent :
  remote ref = Properties name parent →
  received remote ref entity = Some (mkEntity ref name parent).
Proof. unfold received. by intros ->. Qed.

Lemma received_no_content ref entity :
  remote ref = NoContent → received remote ref entity = Some entity.
Proof. unfold received. by intros ->. Qed.

Lemma RetrieveOne_nil ref entity entity' c :
  received remote ref entity = Some entity' →
  RetrieveOne remote ref entity c =
    Some (Some entity', c, [EvRetrieveOne ref true]).
Proof. unfold RetrieveOne. by intros ->. Qed.

Lemma RetrieveOne_err ref entity c :
  received remote ref entity = None →
  RetrieveOne remote ref entity c = Some (None, c, [EvRetrieveOne ref false]).
Proof. unfold RetrieveOne. by intros ->. Qed.

Lemma RetrieveOne_ok ref entity name parent c :
  remote ref = Properties name parent →
  RetrieveOne remote ref entity c =
    Some (Some (mkEntity ref name parent), c, [EvRetrieveOne ref true]).
Proof. intros H. by apply RetrieveOne_nil, received_properties. Qed.

Lemma RetrieveOne_fail ref entity c :
  remote ref = Fault →
  RetrieveOne remote ref entity c = Some (None, c, [EvRetrieveOne ref false]).
Proof. intros H. by apply RetrieveOne_err, received_fault. Qed.

(** One iteration whose fetch returns an error. *)
Lemma loop_err fuel cur res entity c :
  received remote cur entity = None →
  loop remote (S fuel) cur res entity c =
    Some (ReturnError, c, [EvRetrieveOne cur false]).
Proof.
  intros H. simpl. by rewrite (bind_step _ _ _ _ _ _ (RetrieveOne_err _ _ _ H)).
Qed.

(** One iteration at a datacenter. *)
Lemma loop_stop_dc fuel cur res entity entity' c :
  received remote cur entity = Some entity' →
  Type' cur = "Datacenter" →
  loop remote (S fuel) cur res entity c =
    Some (Break (set_dc (Name entity') res), c, [EvRetrieveOne cur true]).
Proof.
  intros H Hty. simpl.
  rewrite (bind_step _ _ _ _ _ _ (RetrieveOne_nil _ _ _ _ H)). simpl.
  rewrite Hty. done.
Qed.

(** One iteration that finds no parent in [entity], not at a datacenter. *)
Lemma loop_stop_top fuel cur res entity entity' c :
  received remote cur entity = Some entity' →
  Type' cur ≠ "Datacenter" →
  Parent entity' = None →
  loop remote (S fuel) cur res entity c =
    Some (Break (visit (cur, Name entity') res), c, [EvRetrieveOne cur true]).
Proof.
  intros H Hty Hp. simpl.
  rewrite (bind_step _ _ _ _ _ _ (RetrieveOne_nil _ _ _ _ H)). simpl.
  rewrite decide_False by done. by rewrite Hp.
Qed.

(** One iteration that finds a parent in [entity], not at a datacenter. *)
Lemma loop_go_up fuel cur res entity entity' parent c :
  received remote cur entity = Some entity' →
  Type' cur ≠ "Datacenter" →
  Parent entity' = Some parent →
  loop remote (S fuel) cur res entity c =
    match loop remote fuel parent (visit (cur, Name entity') res) entity' c with
    | None => None
    | Some (e, c', t) => Some (e, c', EvRetrieveOne cur true :: t)
    end.
Proof.
  intros H Hty Hp. simpl.
  rewrite (bind_step _ _ _ _ _ _ (RetrieveOne_nil _ _ _ _ H)). simpl.
  rewrite decide_False by done. by rewrite Hp.
Qed.

(** The same at nodes that answer with their properties or with an error,
    where what [entity] held before does not matter. *)
Lemma loop_fail fuel cur res entity c :
  remote cur = Fault →
  loop remote (S fuel) cur res entity c =
    Some (ReturnError, c, [EvRetrieveOne cur false]).
Proof. intros H. by apply loop_err, received_fault. Qed.

Lemma loop_top fuel cur name res entity c :
  remote cur = Properties name None →
  Type' cur ≠ "Datacenter" →
  loop remote (S fuel) cur res entity c =
    Some (Break (visit (cur, name) res), c, [EvRetrieveOne cur true]).
Proof.
  intros H Hty.
  by rewrite (loop_stop_top fuel cur res entity _ c (received_properties _ _ _ _ H)).
Qed.

Lemma loop_up fuel cur name parent res entity c :
  remote cur = Properties name (Some parent) →
  Type' cur ≠ "Datacenter" →
  loop remote (S fuel) cur res entity c =
    match loop remote fuel parent (visit (cur, name) res)
            (mkEntity cur name (Some parent)) c with
    | None => None
    | Some (e, c', t) => Some (e, c', EvRetrieveOne cur true :: t)
    end.
Proof.
  intros H Hty.
  by rewrite (loop_go_up fuel cur res entity _ parent c
                (received_properties _ _ _ _ H)).
Qed.


(** The four ways one iteration can go. *)
Lemma loop_cases fuel cur res entity c :
  match received remote cur entity with
  | None =>
      loop remote (S fuel) cur res entity c =
        Some (ReturnError, c, [EvRetrieveOne cur false])
  | Some entity' =>
      if decide (Type' cur = "Datacenter")
      then loop remote (S fuel) cur res entity c =
             Some (Break (set_dc (Name entity') res), c, [EvRetrieveOne cur true])
      else match Parent entity' with
           | None =>
               loop remote (S fuel) cur res entity c =
                 Some (Break (visit (cur, Name entity') res), c,
                       [EvRetrieveOne cur true])
           | Some parent =>
               loop remote (S fuel) cur res entity c =
                 match loop remote fuel parent (visit (cur, Name entity') res)
                         entity' c with
                 | None => None
                 | Some (e, c', t) => Some (e, c', EvRetrieveOne cur true :: t)
                 end
           end
  end.
Proof.
  destruct (received remote cur entity) as [entity'|] eqn:H.
  - case_decide; [by apply loop_stop_dc|].
    destruct (Parent entity') as [parent|] eqn:Hp.
    + by apply loop_go_up.
    + by apply loop_stop_top.
  - by apply loop_err.
Qed.

(** The fuelled loop computes the relation, and needs one unit of fuel
    per fetch. *)
Lemma loop_walks fuel : ∀ cur res entity c exit c' t,
  loop remote fuel cur res entity c = Some (exit, c', t) →
  c' = c ∧ walks remote cur res entity exit t ∧ length t ≤ fuel.
Proof.
  induction fuel as [|fuel IH]; intros cur res entity c exit c' t; [done|].
  pose proof (loop_cases fuel cur res entity c) as Hc.
  destruct (received remote cur entity) as [entity'|] eqn:Hr.
  - case_decide as Hty.
    + rewrite Hc. intros [= <- <- <-]. split_and!; [done| |simpl; lia].
      by apply walks_dc.
    + destruct (Parent entity') as [parent|] eqn:Hp.
      * rewrite Hc.
        destruct (loop remote fuel parent _ entity' c) as [[[e c1] t1]|] eqn:Hl;
          [|done].
        intros [= <- <- <-]. apply IH in Hl as (-> & Hw & Hlen).
        split_and!; [done| |simpl; lia]. by eapply walks_up.
      * rewrite Hc. intros [= <- <- <-]. split_and!; [done| |simpl; lia].
        by apply walks_top.
  - rewrite Hc. intros [= <- <- <-]. split_and!; [done| |simpl; lia].
    by apply walks_fail.
Qed.

Lemma walks_loop cur res entity exit t :
  walks remote cur res entity exit t →
  ∀ fuel c, length t ≤ fuel →
    loop remote fuel cur res entity c = Some (exit, c, t).
Proof.
  induction 1 as [cur res entity H|cur res entity entity' H Hty
                 |cur res entity entity' H Hty Hp
                 |cur res entity entity' parent exit t H Hty Hp Hw IH];
    intros [|fuel] c Hlen; simpl in Hlen; try lia.
  - by apply loop_err.
  - by apply loop_stop_dc.
  - by apply loop_stop_top.
  - rewrite (loop_go_up _ _ _ _ _ _ _ H Hty Hp), IH; [done|lia].
Qed.

(** The relation is a function of the inventory. *)
Lemma walks_det cur res entity exit1 t1 exit2 t2 :
  walks remote cur res entity exit1 t1 → walks remote cur res entity exit2 t2 →
  exit1 = exit2 ∧ t1 = t2.
Proof.
  intros H1 H2.
  pose proof (walks_loop _ _ _ _ _ H1 (length t1 + length t2) ∅ ltac:(lia)) as E1.
  pose proof (walks_loop _ _ _ _ _ H2 (length t1 + length t2) ∅ ltac:(lia)) as E2.
  rewrite E1 in E2. by injection E2.
Qed.

(** More fuel does not change a result. *)
Lemma loop_fuel_mono fuel fuel' cur res entity c r :
  fuel ≤ fuel' →
  loop remote fuel cur res entity c = Some r →
  loop remote fuel' cur res entity c = Some r.
Proof.
  destruct r as [[exit c'] t]. intros Hle Hl.
  apply loop_walks in Hl as (-> & Hw & Hlen).
  apply walks_loop; [done|lia].
Qed.

(** A walk emits fetches only, one per iteration. *)
Lemma walks_only_fetches cur res entity exit t :
  walks remote cur res entity exit t →
  cache_ops t = [] ∧ length (fetches t) = length t.
Proof.
  induction 1; simpl; try done. destruct IHwalks as [-> ->]. done.
Qed.

(** A walk that breaks saw no failure; one that returns the error ends
    with the failed fetch. *)
Lemma walks_break_no_failure cur res entity res' t :
  walks remote cur res entity (Break res') t →
  ∀ ref, EvRetrieveOne ref false ∉ t.
Proof.
  remember (Break res') as exit eqn:He. intros Hw. revert He.
  induction Hw as [| | |cur res entity entity' parent exit t H Hty Hp Hw IH];
    intros He ref; try discriminate; try (by intros [=]%list_elem_of_singleton).
  intros [[=]|Hin]%elem_of_cons. by eapply IH.
Qed.

Lemma walks_error_last cur res entity t :
  walks remote cur res entity ReturnError t →
  ∃ ref t', t = t' ++ [EvRetrieveOne ref false] ∧ remote ref = Fault.
Proof.
  remember ReturnError as exit eqn:He. intros Hw. revert He.
  induction Hw as [cur res entity H| |
                  |cur res entity entity' parent exit t H Hty Hp Hw IH];
    intros He; try discriminate.
  - exists cur, []. split; [done|]. unfold received in H.
    by destruct (remote cur).
  - destruct (IH He) as (ref & t' & -> & Hr).
    by exists ref, (EvRetrieveOne cur true :: t').
Qed.

(** Climbing through answered nodes, then walking on from the top, where
    [entity] holds the last node climbed through. *)
Lemma walks_climbs cur vs top :
  climbs remote cur vs top →
  ∀ res exit t,
    (∀ entity, walks remote top (visit_all vs res) entity exit t) →
    ∀ entity, walks remote cur res entity exit (fetched_ok vs ++ t).
Proof.
  induction 1 as [cur|cur name parent vs top H Hty Hc IH];
    intros res exit t Hw entity.
  - apply Hw.
  - simpl. eapply walks_up; [by apply received_properties|done|done|].
    by apply IH.
Qed.

End Walk.

(** ** getParents *)

Section Resolve.

Variable remote : Inventory.

Lemma getParents_hit fuel me parent cached (c : CacheMap) :
  Parent me = Some parent →
  c !! parent = Some cached →
  getParents remote fuel me c = Some (cached, c, [EvCacheGet parent]).
Proof.
  intros Hp Hc. unfold getParents. rewrite Hp.
  by rewrite (bind_step _ _ _ _ _ _ (Get_hit _ _ _ Hc)).
Qed.

Lemma getParents_miss fuel me parent (c : CacheMap) :
  Parent me = Some parent →
  c !! parent = None →
  getParents remote fuel me c =
    match loop remote fuel parent noneParents zeroEntity c with
    | None => None
    | Some (Break res, c', t) =>
        Some (res, <[parent := res]> c',
              EvCacheGet parent :: t ++ [EvCacheAdd parent res])
    | Some (ReturnError, c', t) =>
        Some (errorParents, c', EvCacheGet parent :: t)
    end.
Proof.
  intros Hp Hc. unfold getParents. rewrite Hp.
  rewrite (bind_step _ _ _ _ _ _ (Get_miss _ _ Hc)).
  fold noneParents. unfold bind at 1.
  destruct (loop remote fuel parent noneParents zeroEntity c) as [[[[res|] c'] t]|]; [| |done].
  - unfold bind, ret, ParentsCache.Add. simpl. done.
  - unfold ret. simpl. by rewrite app_nil_r.
Qed.

(** A miss followed by a walk that breaks. *)
Lemma getParents_miss_break fuel me parent (c : CacheMap) res t :
  Parent me = Some parent →
  c !! parent = None →
  walks remote parent noneParents zeroEntity (Break res) t →
  length t ≤ fuel →
  getParents remote fuel me c =
    Some (res, <[parent := res]> c,
          EvCacheGet parent :: t ++ [EvCacheAdd parent res]).
Proof.
  intros Hp Hc Hw Hlen. rewrite (getParents_miss _ _ _ _ Hp Hc).
  by rewrite (walks_loop _ _ _ _ _ _ Hw fuel c Hlen).
Qed.

(** A miss followed by a walk that fails. *)
Lemma getParents_miss_error fuel me parent (c : CacheMap) t :
  Parent me = Some parent →
  c !! parent = None →
  walks remote parent noneParents zeroEntity ReturnError t →
  length t ≤ fuel →
  getParents remote fuel me c =
    Some (errorParents, c, EvCacheGet parent :: t).
Proof.
  intros Hp Hc Hw Hlen. rewrite (getParents_miss _ _ _ _ Hp Hc).
  by rewrite (walks_loop _ _ _ _ _ _ Hw fuel c Hlen).
Qed.

(** The four ways a call of [getParents] returns. *)
Lemma getParents_inv fuel me (c : CacheMap) res c' t :
  getParents remote fuel me c = Some (res, c', t) →
  (Parent me = None ∧ res = noneParents ∧ c' = c ∧ t = []) ∨
  (∃ parent, Parent me = Some parent ∧ c !! parent = Some res ∧
             c' = c ∧ t = [EvCacheGet parent]) ∨
  (∃ parent tw, Parent me = Some parent ∧ c !! parent = None ∧
             walks remote parent noneParents zeroEntity (Break res) tw ∧ length tw ≤ fuel ∧
             c' = <[parent := res]> c ∧
             t = EvCacheGet parent :: tw ++ [EvCacheAdd parent res]) ∨
  (∃ parent tw, Parent me = Some parent ∧ c !! parent = None ∧
             walks remote parent noneParents zeroEntity ReturnError tw ∧ length tw ≤ fuel ∧
             res = errorParents ∧ c' = c ∧ t = EvCacheGet parent :: tw).
Proof.
  destruct (Parent me) as [parent|] eqn:Hp.
  - destruct (c !! parent) as [cached|] eqn:Hc.
    + rewrite (getParents_hit _ _ _ _ _ Hp Hc). intros [= <- <- <-].
      right; left. by exists parent.
    + rewrite (getParents_miss _ _ _ _ Hp Hc).
      destruct (loop remote fuel parent noneParents zeroEntity c) as [[[exit c1] tw]|] eqn:Hl;
        [|done].
      apply loop_walks in Hl as (-> & Hw & Hlen).
      destruct exit as [res'|]; intros [= <- <- <-].
      * right; right; left. by exists parent, tw.
      * right; right; right. by exists parent, tw.
  - unfold getParents. rewrite Hp. intros [= <- <- <-]. by left.
Qed.

(** An entry of the cache survives a call unchanged. *)
Lemma getParents_keeps fuel me (c : CacheMap) res c' t key val :
  getParents remote fuel me c = Some (res, c', t) →
  c !! key = Some val → c' !! key = Some val.
Proof.
  intros [(_ & _ & -> & _)|[(p & _ & _ & -> & _)|[(p & tw & _ & Hc & _ & _ & -> & _)
         |(p & tw & _ & _ & _ & _ & _ & -> & _)]]]%getParents_inv Hk; try done.
  rewrite lookup_insert_ne; [done|]. intros ->. congruence.
Qed.

(** The single-hop resolvers leave the cache alone and always return. *)
Lemma getVMPool_total me (c : CacheMap) :
  ∃ r t, getVMPool remote me c = Some (r, c, t) ∧ cache_ops t = [].
Proof.
  unfold getVMPool. destruct (ResourcePool me) as [pool|]; [|by eexists _, _].
  unfold bind, RetrieveOne. destruct (received remote pool zeroEntity);
    by eexists _, _.
Qed.

Lemma getVMHostSystem_total me (c : CacheMap) :
  ∃ r t, getVMHostSystem remote me c = Some (r, c, t) ∧ cache_ops t = [].
Proof.
  unfold getVMHostSystem. destruct (Summary_Runtime_Host me) as [host|];
    [|by eexists _, _].
  unfold bind, RetrieveOne. destruct (received remote host zeroEntity);
    by eexists _, _.
Qed.

(** [vmLabels] in terms of its three calls. *)
Lemma vmLabels_inv fuel item (c : CacheMap) labels c' t :
  vmLabels remote fuel item c = Some (labels, c', t) →
  ∃ pool t1 t2 host t3,
    getVMPool remote item c = Some (pool, c, t1) ∧
    getParents remote fuel (default (vmManagedEntity item) pool) c
      = Some (parents labels, c', t2) ∧
    poolName labels = from_option Name "NONE" pool ∧
    getVMHostSystem remote item c' = Some (host, c', t3) ∧
    esxName labels = from_option Name "NONE" host ∧
    t = t1 ++ t2 ++ t3.
Proof.
  unfold vmLabels.
  intros (pool & c1 & t1 & t23 & Hpool & Hrest & ->)%bind_Some.
  destruct (getVMPool_total item c) as (pool' & t1' & Hpool' & _).
  rewrite Hpool' in Hpool. injection Hpool as -> -> ->.
  apply bind_Some in Hrest as (resolved & c2 & t2 & t3 & Hres & Hrest & ->).
  apply bind_Some in Hrest as (host & c3 & t3' & t4 & Hhost & Hret & ->).
  destruct (getVMHostSystem_total item c2) as (host' & t3'' & Hhost' & _).
  rewrite Hhost' in Hhost. injection Hhost as -> -> ->.
  unfold ret in Hret. injection Hret as <- <- <-.
  exists pool, t1, t2, host, t3'. rewrite app_nil_r. simpl.
  destruct pool as [pool|]; simpl;
    apply bind_Some in Hres as (ps & c4 & t5 & t6 & Hgp & Hret & ->);
    unfold ret in Hret; injection Hret as <- <- <-; rewrite app_nil_r;
    simpl; split_and!; try done; by destruct host.
Qed.

End Resolve.

(** Within a scrape an entry, once cached, stays as it is. *)
Lemma scrape_step_keeps (c c' : CacheMap) key val :
  scrape_step c c' → c !! key = Some val → c' !! key = Some val.
Proof.
  intros [remote fuel me c0 res c1 t H|remote fuel item c0 labels c1 t H] Hk.
  - by eapply getParents_keeps.
  - apply vmLabels_inv in H as (pool & t1 & t2 & host & t3 & _ & Hgp & _).
    by eapply getParents_keeps.
Qed.

Lemma scrape_keeps (c c' : CacheMap) key val :
  rtc scrape_step c c' → c !! key = Some val → c' !! key = Some val.
Proof. induction 1; eauto using scrape_step_keeps. Qed.

(** ** Termination of the walk *)

Section Termination.

Variable remote : Inventory.

Lemma walk_edge_parent_of parent cur :
  walk_edge remote parent cur → parent_of remote parent cur.
Proof. by intros [_ ?]. Qed.

Lemma Acc_walk_edge_of_parent p :
  Acc (parent_of remote) p → Acc (walk_edge remote) p.
Proof.
  induction 1 as [p _ IH]. constructor. intros q Hq.
  by apply IH, walk_edge_parent_of.
Qed.

(** Where the walk's edges are well founded and every fetch comes back with
    an error or with the object's properties, the walk ends. *)
Lemma walks_of_Acc p :
  (∀ ref, remote ref ≠ NoContent) →
  Acc (walk_edge remote) p →
  ∀ res entity, ∃ exit t, walks remote p res entity exit t.
Proof.
  intros Hans. induction 1 as [p _ IH]. intros res entity.
  destruct (remote p) as [| |name [parent|]] eqn:Hr.
  - eexists _, _. by apply walks_fail, received_fault.
  - by destruct (Hans p).
  - destruct (decide (Type' p = "Datacenter")) as [Hty|Hty].
    + eexists _, _. by eapply walks_dc; [eapply received_properties|].
    + destruct (IH parent (conj Hty (ex_intro _ name Hr)) (visit (p, name) res)
                  (mkEntity p name (Some parent))) as (exit & t & Hw).
      eexists _, _.
      by eapply walks_up; [eapply received_properties|..].
  - destruct (decide (Type' p = "Datacenter")) as [Hty|Hty].
    + eexists _, _. by eapply walks_dc; [eapply received_properties|].
    + eexists _, _. by eapply walks_top; [eapply received_properties|..].
Qed.

(** A set of nodes the walk cannot leave is never walked through. *)
Lemma trapped_never_walks S p res entity exit t :
  trapped remote S → S p → ¬ walks remote p res entity exit t.
Proof.
  intros HS Hp Hw.
  induction Hw as [cur res entity H|cur res entity entity' H Hty
                  |cur res entity entity' H Hty Hpar
                  |cur res entity entity' parent exit t H Hty Hpar Hw IH];
    destruct (HS _ Hp) as (Hnd & name' & parent' & Hr & Hin);
    rewrite (received_properties _ _ _ _ _ Hr) in H; try congruence.
  - injection H as <-. simpl in Hpar. congruence.
  - injection H as <-. simpl in Hpar. apply IH. congruence.
Qed.

Lemma trapped_loop_None S p fuel res entity c :
  trapped remote S → S p → loop remote fuel p res entity c = None.
Proof.
  intros HS Hp.
  destruct (loop remote fuel p res entity c) as [[[exit c'] t]|] eqn:Hl; [|done].
  apply loop_walks in Hl as (_ & Hw & _).
  by destruct (trapped_never_walks _ _ _ _ _ _ HS Hp Hw).
Qed.

(** A node whose fetch leaves in [entity] a parent pointer to the node
    itself is fetched over and over. *)
Lemma loop_stale_None cur entity :
  received remote cur entity = Some entity →
  Type' cur ≠ "Datacenter" →
  Parent entity = Some cur →
  ∀ fuel res c, loop remote fuel cur res entity c = None.
Proof.
  intros Hrec Hty Hp. induction fuel as [|fuel IH]; intros res c; [done|].
  by rewrite (loop_go_up _ _ _ _ _ _ _ _ Hrec Hty Hp), IH.
Qed.

End Termination.

(** ** What a walk records *)

Lemma visit_cluster node res :
  cluster (visit node res) =
    if decide (Type' node.1 = "ClusterComputeResource") then node.2 else cluster res.
Proof. unfold visit. repeat case_decide; done. Qed.

Lemma visit_spod node res :
  spod (visit node res) =
    if decide (Type' node.1 = "StoragePod") then node.2 else spod res.
Proof. unfold visit. repeat case_decide; done. Qed.

Lemma visit_dc node res : dc (visit node res) = dc res.
Proof. unfold visit. repeat case_decide; done. Qed.

Lemma visit_transparent node res :
  Type' node.1 ≠ "StoragePod" →
  Type' node.1 ≠ "ClusterComputeResource" →
  visit node res = res.
Proof. intros. unfold visit. by rewrite !decide_False. Qed.

Lemma visit_all_snoc vs node res :
  visit_all (vs ++ [node]) res = visit node (visit_all vs res).
Proof. unfold visit_all. by rewrite foldl_app. Qed.

Lemma visit_all_dc vs res : dc (visit_all vs res) = dc res.
Proof.
  induction vs as [|node vs IH] using rev_ind; [done|].
  by rewrite visit_all_snoc, visit_dc.
Qed.

(** The cluster field holds the name of the last cluster node passed, the
    storage pod field that of the last storage pod. *)
Lemma visit_all_cluster_last l1 cl cname l2 res :
  Type' cl = "ClusterComputeResource" →
  Forall (λ node, Type' node.1 ≠ "ClusterComputeResource") l2 →
  cluster (visit_all (l1 ++ (cl, cname) :: l2) res) = cname.
Proof.
  intros Hty. induction l2 as [|node l2 IH] using rev_ind; intros Hl2.
  - rewrite visit_all_snoc, visit_cluster. simpl. by rewrite decide_True.
  - apply Forall_app in Hl2 as [Hl2 [Hn _]%Forall_cons].
    replace (l1 ++ (cl, cname) :: l2 ++ [node])
      with ((l1 ++ (cl, cname) :: l2) ++ [node]) by (by rewrite <- app_assoc).
    rewrite visit_all_snoc, visit_cluster.
    rewrite decide_False by done. by apply IH.
Qed.

Lemma visit_all_spod_last l1 sp sname l2 res :
  Type' sp = "StoragePod" →
  Forall (λ node, Type' node.1 ≠ "StoragePod") l2 →
  spod (visit_all (l1 ++ (sp, sname) :: l2) res) = sname.
Proof.
  intros Hty. induction l2 as [|node l2 IH] using rev_ind; intros Hl2.
  - rewrite visit_all_snoc, visit_spod. simpl. by rewrite decide_True.
  - apply Forall_app in Hl2 as [Hl2 [Hn _]%Forall_cons].
    replace (l1 ++ (sp, sname) :: l2 ++ [node])
      with ((l1 ++ (sp, sname) :: l2) ++ [node]) by (by rewrite <- app_assoc).
    rewrite visit_all_snoc, visit_spod.
    rewrite decide_False by done. by apply IH.
Qed.

(** With a single cluster node on the path, it is that node's name. *)
Lemma visit_all_cluster_only vs cl cname res :
  (cl, cname) ∈ vs →
  Type' cl = "ClusterComputeResource" →
  (∀ node, node ∈ vs → Type' node.1 = "ClusterComputeResource" → node = (cl, cname)) →
  cluster (visit_all vs res) = cname.
Proof.
  intros Hin Hty. induction vs as [|node vs IH] using rev_ind; intros Hall.
  - by apply elem_of_nil in Hin.
  - rewrite visit_all_snoc, visit_cluster. case_decide as Hn.
    + rewrite (Hall node); [done| |done]. apply elem_of_app. right. by left.
    + apply elem_of_app in Hin as [Hin|Hin%list_elem_of_singleton].
      * apply IH; [done|]. intros n Hn'. apply Hall, elem_of_app. by left.
      * subst node. done.
Qed.

Lemma visit_all_spod_only vs sp sname res :
  (sp, sname) ∈ vs →
  Type' sp = "StoragePod" →
  (∀ node, node ∈ vs → Type' node.1 = "StoragePod" → node = (sp, sname)) →
  spod (visit_all vs res) = sname.
Proof.
  intros Hin Hty. induction vs as [|node vs IH] using rev_ind; intros Hall.
  - by apply elem_of_nil in Hin.
  - rewrite visit_all_snoc, visit_spod. case_decide as Hn.
    + rewrite (Hall node); [done| |done]. apply elem_of_app. right. by left.
    + apply elem_of_app in Hin as [Hin|Hin%list_elem_of_singleton].
      * apply IH; [done|]. intros n Hn'. apply Hall, elem_of_app. by left.
      * subst node. done.
Qed.

Lemma final_record_dc vs top :
  dc (final_record vs top) =
    if decide (Type' top.1 = "Datacenter") then top.2 else "NONE".
Proof.
  unfold final_record. case_decide; [done|]. by rewrite visit_all_dc.
Qed.

Lemma final_record_cluster vs top :
  cluster (final_record vs top) = cluster (visit_all (vs ++ [top]) noneParents).
Proof. unfold final_record. by case_decide. Qed.

Lemma final_record_spod vs top :
  spod (final_record vs top) = spod (visit_all (vs ++ [top]) noneParents).
Proof. unfold final_record. by case_decide. Qed.

Lemma fetched_ok_snoc vs node :
  fetched_ok (vs ++ [node]) = fetched_ok vs ++ [EvRetrieveOne node.1 true].
Proof. unfold fetched_ok. by rewrite map_app. Qed.

Lemma length_fetched_ok vs : length (fetched_ok vs) = length vs.
Proof. unfold fetched_ok. apply length_map. Qed.

Section Paths.

Variable remote : Inventory.

(** The walk along a path that ends at a datacenter or at a node without
    parent. *)
Lemma walks_path p vs top tname tparent res :
  climbs remote p vs top →
  remote top = Properties tname tparent →
  Type' top = "Datacenter" ∨ tparent = None →
  ∀ entity,
    walks remote p res entity
      (Break (let r := visit_all (vs ++ [(top, tname)]) res in
              if decide (Type' top = "Datacenter") then set_dc tname r else r))
      (fetched_ok (vs ++ [(top, tname)])).
Proof.
  intros Hc Hr Hstop. rewrite fetched_ok_snoc. simpl.
  apply (walks_climbs _ _ _ _ Hc). intros entity. rewrite visit_all_snoc.
  destruct (decide (Type' top = "Datacenter")) as [Hty|Hty].
  - rewrite visit_transparent by (simpl; rewrite Hty; done).
    by apply (walks_dc _ _ _ _ _ (received_properties _ _ _ _ _ Hr)).
  - destruct Hstop as [?| ->]; [done|].
    by apply (walks_top _ _ _ _ _ (received_properties _ _ _ _ _ Hr)).
Qed.

(** A miss, then the walk along such a path: the record read off the path
    is returned and cached under the parent the walk started from. *)
Lemma getParents_miss_path fuel me p (c : CacheMap) vs top tname tparent :
  Parent me = Some p →
  c !! p = None →
  climbs remote p vs top →
  remote top = Properties tname tparent →
  Type' top = "Datacenter" ∨ tparent = None →
  length vs < fuel →
  getParents remote fuel me c =
    Some (final_record vs (top, tname),
          <[p := final_record vs (top, tname)]> c,
          EvCacheGet p :: fetched_ok (vs ++ [(top, tname)])
            ++ [EvCacheAdd p (final_record vs (top, tname))]).
Proof.
  intros Hp Hc Hcl Hr Hstop Hlen.
  apply getParents_miss_break; [done..| |].
  - by eapply walks_path.
  - rewrite length_fetched_ok, length_app. simpl. lia.
Qed.

(** A miss, then a walk that runs into a failing fetch. *)
Lemma getParents_miss_failure fuel me p (c : CacheMap) vs x :
  Parent me = Some p →
  c !! p = None →
  climbs remote p vs x →
  remote x = Fault →
  length vs < fuel →
  getParents remote fuel me c =
    Some (errorParents, c,
          EvCacheGet p :: fetched_ok vs ++ [EvRetrieveOne x false]).
Proof.
  intros Hp Hc Hcl Hr Hlen.
  apply getParents_miss_error; [done..| |].
  - apply (walks_climbs _ _ _ _ Hcl). intros entity.
    by apply walks_fail, received_fault.
  - rewrite length_app, length_fetched_ok. simpl. lia.
Qed.

End Paths.

(** ** The single-hop resolvers and the VM labels *)

Section SingleHop.

Variable remote : Inventory.

Lemma getVMPool_none me (c : CacheMap) :
  ResourcePool me = None → getVMPool remote me c = Some (None, c, []).
Proof. unfold getVMPool. by intros ->. Qed.

Lemma getVMPool_failed me pool (c : CacheMap) :
  ResourcePool me = Some pool →
  remote pool = Fault →
  getVMPool remote me c = Some (None, c, [EvRetrieveOne pool false]).
Proof.
  unfold getVMPool. intros -> Hr.
  by rewrite (bind_step _ _ _ _ _ _ (RetrieveOne_fail _ _ zeroEntity _ Hr)).
Qed.

Lemma getVMPool_empty me pool (c : CacheMap) :
  ResourcePool me = Some pool →
  remote pool = NoContent →
  getVMPool remote me c =
    Some (Some zeroEntity, c, [EvRetrieveOne pool true]).
Proof.
  unfold getVMPool. intros -> Hr.
  by rewrite (bind_step _ _ _ _ _ _
                (RetrieveOne_nil _ _ zeroEntity _ _ (received_no_content _ _ _ Hr))).
Qed.

Lemma getVMPool_found me pool name parent (c : CacheMap) :
  ResourcePool me = Some pool →
  remote pool = Properties name parent →
  getVMPool remote me c =
    Some (Some (mkEntity pool name parent), c, [EvRetrieveOne pool true]).
Proof.
  unfold getVMPool. intros -> Hr.
  by rewrite (bind_step _ _ _ _ _ _ (RetrieveOne_ok _ _ zeroEntity _ _ _ Hr)).
Qed.

(** [getParents] reads nothing of its argument but [Parent]. *)
Lemma getParents_ext fuel me1 me2 :
  Parent me1 = Parent me2 →
  getParents remote fuel me1 = getParents remote fuel me2.
Proof. unfold getParents. by intros ->. Qed.

(** [vmLabels] from the results of its three calls. *)
Lemma vmLabels_run fuel item (c : CacheMap) pool t1 ps c' t2 :
  getVMPool remote item c = Some (pool, c, t1) →
  getParents remote fuel (default (vmManagedEntity item) pool) c = Some (ps, c', t2) →
  ∃ host t3,
    getVMHostSystem remote item c' = Some (host, c', t3) ∧
    vmLabels remote fuel item c =
      Some (mkVMLabels ps (from_option Name "NONE" pool) (from_option Name "NONE" host),
            c', t1 ++ t2 ++ t3).
Proof.
  intros Hpool Hgp.
  destruct (getVMHostSystem_total remote item c') as (host & t3 & Hhost & _).
  exists host, t3. split; [done|].
  unfold vmLabels. rewrite (bind_step _ _ _ _ _ _ Hpool).
  destruct pool as [pool|]; simpl in Hgp |- *.
  - rewrite (bind_step _ (λ resolved, bind (getVMHostSystem remote item) _) c
               (ps, Name pool) c' t2).
    + rewrite (bind_step _ _ _ _ _ _ Hhost). unfold ret.
      rewrite !app_nil_r. by destruct host.
    + rewrite (bind_step _ _ _ _ _ _ Hgp). unfold ret. by rewrite app_nil_r.
  - rewrite (bind_step _ (λ resolved, bind (getVMHostSystem remote item) _) c
               (ps, "NONE") c' t2).
    + rewrite (bind_step _ _ _ _ _ _ Hhost). unfold ret.
      rewrite !app_nil_r. by destruct host.
    + rewrite (bind_step _ _ _ _ _ _ Hgp). unfold ret. by rewrite app_nil_r.
Qed.

End SingleHop.

(** ** Runs over the concrete inventories *)

Lemma scenario_run k (c : CacheMap) :
  esxUpdate scenario (3 + k) [objC; objD] c =
    Some ([scenarioParents; scenarioParents], {[P1 := scenarioParents]},
          [EvCacheFlush;
           EvCacheGet P1;
           EvRetrieveOne P1 true; EvRetrieveOne P2 true; EvRetrieveOne P3 true;
           EvCacheAdd P1 scenarioParents;
           EvCacheGet P1]).
Proof. vm_refl. Qed.

Lemma scenario_short fuel (c : CacheMap) :
  fuel < 3 → esxUpdate scenario fuel [objC; objD] c = None.
Proof.
  intros H. destruct fuel as [|[|[|fuel]]]; [vm_refl..|lia].
Qed.

(** One step up a concrete inventory, and membership in a concrete list. *)
Ltac climb :=
  repeat (eapply climbs_up; [vm_compute; reflexivity|discriminate|]);
  apply climbs_here.

Ltac by_cases_in H :=
  repeat (apply elem_of_cons in H as [H|H]; [try subst; try done; try discriminate|]);
  try (by apply elem_of_nil in H).


Lemma climbs_rooted_pod :
  climbs rooted podRef [(podRef, "PodA"); (P2, "ClusterX")] P3.
Proof. climb. Defined.

Lemma climbs_broken_P1 :
  climbs broken P1 [(P1, "Resources"); (P2, "ClusterX")] P3.
Proof. climb. Defined.

(** * The claims *)

(** C1.  An object without parent reference resolves to the all-"NONE"
    record at once: the call returns with any fuel, the cache map is the one
    it was given, and no event is logged, neither a remote fetch nor a read
    or write of the cache. *)
Theorem getParents_no_parent remote fuel me (c : CacheMap) :
  Parent me = None →
  getParents remote fuel me c = Some (mkParents "NONE" "NONE" "NONE", c, []).
Proof. intros H. unfold getParents. by rewrite H. Qed.

Lemma getParents_no_parent_witness :
  Parent objB = None ∧
  getParents scenario 0 objB ∅ = Some (mkParents "NONE" "NONE" "NONE", ∅, []).
Proof.
  split; [reflexivity|].
  apply (getParents_no_parent scenario 0 objB ∅). reflexivity.
Defined.

(** C2, refuted as stated: when the first walk fails, nothing is cached and
    the second resolution under the same parent fetches again. *)
Lemma repeat_after_failure_fetches_again : ¬ every_repeat_hits.
Proof.
  intros H.
  destruct (H unreachable 1 objC objD P1 ∅ errorParents ∅
              [EvCacheGet P1; EvRetrieveOne P1 false]) as (t2 & Hrun & Hnone);
    [reflexivity..|].
  vm_compute in Hrun. injection Hrun as <-. discriminate Hnone.
Qed.

(** C2, as the code has it.  Let a resolution under parent [parent] return
    without any of its fetches having failed.  Then, however many resolver
    calls follow in the same scrape (no flush, whatever the remote side
    answers meanwhile), a resolution of any object with the same parent
    returns the same record, leaves the cache as it is, and does nothing
    but read the cache once: no remote fetch. *)
Theorem getParents_repeat_is_hit
    remote1 fuel1 me1 (c : CacheMap) res c1 t1 parent c2 remote2 fuel2 me2 :
  Parent me1 = Some parent →
  getParents remote1 fuel1 me1 c = Some (res, c1, t1) →
  (∀ ref, EvRetrieveOne ref false ∉ t1) →
  rtc scrape_step c1 c2 →
  Parent me2 = Some parent →
  getParents remote2 fuel2 me2 c2 = Some (res, c2, [EvCacheGet parent]).
Proof.
  intros Hp1 Hrun Hok Hscrape Hp2.
  apply getParents_hit; [done|]. apply (scrape_keeps _ _ _ _ Hscrape).
  apply getParents_inv in Hrun
    as [(Hnone & _)|[(p & Hp & Hc & -> & _)|[(p & tw & Hp & _ & _ & _ & -> & _)
       |(p & tw & _ & _ & Hw & _ & _ & _ & ->)]]].
  - congruence.
  - congruence.
  - rewrite Hp1 in Hp. injection Hp as <-. apply lookup_insert_eq.
  - apply walks_error_last in Hw as (ref & t' & -> & _).
    destruct (Hok ref). apply elem_of_cons. right.
    apply elem_of_app. right. by left.
Qed.

Lemma getParents_repeat_is_hit_witness :
  getParents scenario 3 objD {[P1 := scenarioParents]}
    = Some (scenarioParents, {[P1 := scenarioParents]}, [EvCacheGet P1]).
Proof.
  apply (getParents_repeat_is_hit scenario 3 objC ∅ scenarioParents
           {[P1 := scenarioParents]}
           [EvCacheGet P1;
            EvRetrieveOne P1 true; EvRetrieveOne P2 true; EvRetrieveOne P3 true;
            EvCacheAdd P1 scenarioParents]
           P1 {[P1 := scenarioParents]} scenario 3 objD).
  - reflexivity.
  - vm_refl.
  - intros ref Hin. by_cases_in Hin.
  - apply rtc_refl.
  - reflexivity.
Defined.



(** C4.  When the walk, after any number of answered nodes, reaches a node
    whose fetch fails, the resolution returns exactly
    ("ERROR","ERROR","ERROR"), whatever cluster or storage pod it had passed
    on the way; the cache map is unchanged, so the parent reference is still
    absent from it, and the only cache operation of the call is the initial
    read. *)
Theorem getParents_failure_not_cached remote fuel me p (c : CacheMap) vs x :
  Parent me = Some p →
  c !! p = None →
  climbs remote p vs x →
  remote x = Fault →
  length vs < fuel →
  ∃ c' t,
    getParents remote fuel me c = Some (mkParents "ERROR" "ERROR" "ERROR", c', t) ∧
    c' = c ∧ c' !! p = None ∧
    cache_ops t = [EvCacheGet p] ∧
    fetches t = (fst <$> vs) ++ [x].
Proof.
  intros Hp Hc Hcl Hr Hlen. eexists c, _. split.
  - by apply (getParents_miss_failure remote fuel me p c vs x).
  - split_and!; [done|done| |].
    + change (EvCacheGet p :: ?t) with ([EvCacheGet p] ++ t).
      rewrite !cache_ops_app. simpl. rewrite app_nil_r.
      clear. induction vs; [done|]. simpl. by rewrite IHvs.
    + change (EvCacheGet p :: ?t) with ([EvCacheGet p] ++ t).
      rewrite !fetches_app. simpl. f_equal.
      clear. induction vs; [done|]. simpl. by rewrite IHvs.
Qed.

Lemma getParents_failure_not_cached_witness :
  ∃ (c' : CacheMap) t,
    getParents broken 3 objA ∅ = Some (mkParents "ERROR" "ERROR" "ERROR", c', t) ∧
    c' = ∅ ∧ c' !! P1 = None ∧
    cache_ops t = [EvCacheGet P1] ∧
    fetches t = [P1; P2; P3].
Proof.
  apply (getParents_failure_not_cached broken 3 objA P1 ∅
           [(P1, "Resources"); (P2, "ClusterX")] P3).
  - reflexivity.
  - apply lookup_empty.
  - exact climbs_broken_P1.
  - vm_refl.
  - simpl. lia.
Defined.

(** C6.  Take a walk that completes: it climbs through [vs] and stops at
    [top], a datacenter or a node without parent.  If among the nodes
    visited there is one cluster node and one storage pod node, the record
    returned has the cluster node's name in [cluster] and the storage pod
    node's name in [spod], both at once.  An iteration at a node that
    carries none of the three tags and names a parent only fetches and moves
    up: the loop goes on from the parent with the record untouched. *)
Theorem getParents_cluster_and_spod remote :
  (∀ fuel me p (c : CacheMap) vs top tname tparent cl cname sp sname,
     Parent me = Some p →
     c !! p = None →
     climbs remote p vs top →
     remote top = Properties tname tparent →
     Type' top = "Datacenter" ∨ tparent = None →
     length vs < fuel →
     (cl, cname) ∈ vs ++ [(top, tname)] →
     Type' cl = "ClusterComputeResource" →
     (∀ node, node ∈ vs ++ [(top, tname)] →
              Type' node.1 = "ClusterComputeResource" → node = (cl, cname)) →
     (sp, sname) ∈ vs ++ [(top, tname)] →
     Type' sp = "StoragePod" →
     (∀ node, node ∈ vs ++ [(top, tname)] →
              Type' node.1 = "StoragePod" → node = (sp, sname)) →
     ∃ res t,
       getParents remote fuel me c = Some (res, <[p := res]> c, t) ∧
       cluster res = cname ∧ spod res = sname) ∧
  (∀ fuel cur name parent res entity (c : CacheMap),
     remote cur = Properties name (Some parent) →
     Type' cur ≠ "StoragePod" →
     Type' cur ≠ "ClusterComputeResource" →
     Type' cur ≠ "Datacenter" →
     loop remote (S fuel) cur res entity c =
       match loop remote fuel parent res (mkEntity cur name (Some parent)) c with
       | None => None
       | Some (exit, c', t) => Some (exit, c', EvRetrieveOne cur true :: t)
       end).
Proof.
  split.
  - intros fuel me p c vs top tname tparent cl cname sp sname
      Hp Hc Hcl Hr Hstop Hlen Hincl Htcl Hocl Hinsp Htsp Hosp.
    eexists _, _. split; [by eapply getParents_miss_path|]. split.
    + rewrite final_record_cluster. by eapply visit_all_cluster_only.
    + rewrite final_record_spod. by eapply visit_all_spod_only.
  - intros fuel cur name parent res entity c Hr Hsp Hcl Hdc.
    rewrite (loop_up _ _ _ _ _ _ entity _ Hr Hdc).
    by rewrite visit_transparent.
Qed.

Lemma getParents_cluster_and_spod_witness :
  (∃ res t,
     getParents rooted 3 objPod ∅ = Some (res, <[podRef := res]> ∅, t) ∧
     cluster res = "ClusterX" ∧ spod res = "PodA") ∧
  loop rooted 3 P1 noneParents zeroEntity ∅ =
    match loop rooted 2 P2 noneParents (mkEntity P1 "Resources" (Some P2)) ∅ with
    | None => None
    | Some (exit, c', t) => Some (exit, c', EvRetrieveOne P1 true :: t)
    end.
Proof.
  split.
  - apply (proj1 (getParents_cluster_and_spod rooted)
             3 objPod podRef ∅ [(podRef, "PodA"); (P2, "ClusterX")] P3 "DC1"
             (Some rootFolder) P2 "ClusterX" podRef "PodA").
    + reflexivity.
    + apply lookup_empty.
    + exact climbs_rooted_pod.
    + vm_refl.
    + left. reflexivity.
    + simpl. lia.
    + apply elem_of_cons. right. apply elem_of_cons. by left.
    + reflexivity.
    + intros node Hin Hty. by_cases_in Hin.
    + apply elem_of_cons. by left.
    + reflexivity.
    + intros node Hin Hty. by_cases_in Hin.
  - apply (proj2 (getParents_cluster_and_spod rooted) 2 P1 "Resources" P2).
    + vm_refl.
    + discriminate.
    + discriminate.
    + discriminate.
Defined.

(** C7, refuted as stated: no run of the scenario that resolves C and D to
    the expected record makes two fetches. *)
Lemma scenario_costs_three_fetches : ¬ scenario_costs_two_fetches.
Proof.
  intros (fuel & c' & t & Hrun & Hlen).
  destruct (decide (fuel < 3)) as [Hlt|Hge].
  - by rewrite scenario_short in Hrun.
  - replace fuel with (3 + (fuel - 3)) in Hrun by lia.
    rewrite scenario_run in Hrun. injection Hrun as _ <-. discriminate Hlen.
Qed.

(** C7, as the code has it.  In the scenario, one scrape that resolves C
    and then D returns {dc:"DC1", cluster:"ClusterX", spod:"NONE"} for each
    and issues exactly three remote fetches in all, one for each of P1, P2
    and P3, all of them while resolving C: the datacenter node is fetched
    too, for its name.  D is answered by the cache. *)
Theorem scenario_C_then_D k (c : CacheMap) :
  ∃ c' t,
    esxUpdate scenario (3 + k) [objC; objD] c =
      Some ([mkParents "DC1" "ClusterX" "NONE"; mkParents "DC1" "ClusterX" "NONE"],
            c', t) ∧
    fetches t = [P1; P2; P3] ∧
    length (fetches t) = 3 ∧
    t = [EvCacheFlush;
         EvCacheGet P1;
         EvRetrieveOne P1 true; EvRetrieveOne P2 true; EvRetrieveOne P3 true;
         EvCacheAdd P1 (mkParents "DC1" "ClusterX" "NONE");
         EvCacheGet P1].
Proof. eexists _, _. split; [apply scenario_run|]. done. Qed.

(** C8.  [getVMPool] always returns and leaves the cache map as it is,
    without any cache operation.  Without declared resource pool it returns
    nil and fetches nothing.  With one it makes exactly one fetch, of that
    reference: nil if the fetch fails, the fetched entity otherwise (the
    zero entity when the fetch delivers nothing). *)
Theorem getVMPool_single_fetch remote me (c : CacheMap) :
  ∃ r t,
    getVMPool remote me c = Some (r, c, t) ∧
    cache_ops t = [] ∧
    match ResourcePool me with
    | None => r = None ∧ t = []
    | Some pool =>
        fetches t = [pool] ∧
        match remote pool with
        | Fault => r = None ∧ t = [EvRetrieveOne pool false]
        | NoContent => r = Some zeroEntity ∧ t = [EvRetrieveOne pool true]
        | Properties name parent =>
            r = Some (mkEntity pool name parent) ∧ t = [EvRetrieveOne pool true]
        end
    end.
Proof.
  destruct (ResourcePool me) as [pool|] eqn:Hp.
  - destruct (remote pool) as [| |name parent] eqn:Hr.
    + eexists _, _. split; [by apply getVMPool_failed|]. done.
    + eexists _, _. split; [by apply getVMPool_empty|]. done.
    + eexists _, _. split; [by apply getVMPool_found|]. done.
  - eexists _, _. split; [by apply getVMPool_none|]. done.
Qed.

(** C9.  The labels of a VM.  When the VM declares a resource pool and the
    pool's fetch answers with [pname] and [pparent], the ancestry used is the
    one resolved from the pool entity, that is from [pparent] upward (any
    entity with that parent resolves alike), not from the VM's own parent,
    and the pool label is [pname].  When the VM declares no pool, or the
    pool's fetch fails, the ancestry is resolved from the VM's own
    [ManagedEntity] and the pool label is "NONE". *)
Theorem vmLabels_ancestry_of_pool remote fuel item (c : CacheMap) :
  (∀ pool pname pparent start ps c' t2,
     ResourcePool item = Some pool →
     remote pool = Properties pname pparent →
     Parent start = pparent →
     getParents remote fuel start c = Some (ps, c', t2) →
     ∃ esx t3,
       vmLabels remote fuel item c =
         Some (mkVMLabels ps pname esx, c', EvRetrieveOne pool true :: t2 ++ t3)) ∧
  (∀ ps c' t2,
     ResourcePool item = None ∨
       (∃ pool, ResourcePool item = Some pool ∧ remote pool = Fault) →
     getParents remote fuel (vmManagedEntity item) c = Some (ps, c', t2) →
     ∃ esx t1 t3,
       vmLabels remote fuel item c =
         Some (mkVMLabels ps "NONE" esx, c', t1 ++ t2 ++ t3)).
Proof.
  split.
  - intros pool pname pparent start ps c' t2 Hpool Hr Hstart Hgp.
    pose proof (getVMPool_found remote item pool pname pparent c Hpool Hr) as Hfound.
    rewrite (getParents_ext remote fuel start (mkEntity pool pname pparent))
      in Hgp by done.
    destruct (vmLabels_run remote fuel item c _ _ ps c' t2 Hfound Hgp)
      as (host & t3 & _ & ->).
    by eexists _, _.
  - intros ps c' t2 Hno Hgp.
    assert (∃ t1, getVMPool remote item c = Some (None, c, t1)) as [t1 Hnone].
    { destruct Hno as [Hno|(pool & Hpool & Hr)].
      - eexists. by apply getVMPool_none.
      - eexists. by eapply getVMPool_failed. }
    destruct (vmLabels_run remote fuel item c _ _ ps c' t2 Hnone Hgp)
      as (host & t3 & _ & ->).
    by eexists _, _, _.
Qed.

Lemma vmLabels_ancestry_of_pool_witness :
  (∃ esx t3,
     vmLabels rooted 3 vmPooled ∅ =
       Some (mkVMLabels (mkParents "DC1" "ClusterX" "NONE") "Resources" esx,
             {[P2 := mkParents "DC1" "ClusterX" "NONE"]},
             EvRetrieveOne P1 true ::
               [EvCacheGet P2; EvRetrieveOne P2 true; EvRetrieveOne P3 true;
                EvCacheAdd P2 (mkParents "DC1" "ClusterX" "NONE")] ++ t3)) ∧
  (∃ esx t1 t3,
     vmLabels rooted 3 vmNoPool ∅ =
       Some (mkVMLabels (mkParents "DC1" "NONE" "NONE") "NONE" esx,
             {[vmFolder := mkParents "DC1" "NONE" "NONE"]},
             t1 ++ [EvCacheGet vmFolder; EvRetrieveOne vmFolder true;
                    EvRetrieveOne P3 true;
                    EvCacheAdd vmFolder (mkParents "DC1" "NONE" "NONE")] ++ t3)).
Proof.
  split.
  - apply (proj1 (vmLabels_ancestry_of_pool rooted 3 vmPooled ∅)
             P1 "Resources" (Some P2) (mkEntity P1 "Resources" (Some P2))).
    + reflexivity.
    + vm_refl.
    + reflexivity.
    + vm_refl.
  - apply (proj2 (vmLabels_ancestry_of_pool rooted 3 vmNoPool ∅)).
    + left. reflexivity.
    + vm_refl.
Defined.

(** A walk that has climbed through at least one node and then fetches a
    node that comes back with no error and no content never ends: [entity]
    still holds the node below, whose parent is the node being fetched. *)
Lemma getParents_no_content_spins remote fuel me p (c : CacheMap)
    vs below bname q :
  Parent me = Some p →
  c !! p = None →
  climbs remote p vs below →
  remote below = Properties bname (Some q) →
  Type' below ≠ "Datacenter" →
  remote q = NoContent →
  Type' q ≠ "Datacenter" →
  getParents remote fuel me c = None.
Proof.
  intros Hp Hc Hcl Hb Htb Hq Htq.
  rewrite (getParents_miss remote fuel me p c Hp Hc).
  destruct (loop remote fuel p noneParents zeroEntity c) as [[[exit c'] t]|] eqn:Hl;
    [|done].
  apply loop_walks in Hl as (_ & Hw & _). exfalso.
  assert (∀ res entity exit t, ¬ walks remote below res entity exit t) as Hno.
  { intros res entity exit' t' Hw'.
    pose proof (walks_loop _ _ _ _ _ _ Hw' (length t') ∅ ltac:(lia)) as Hrun.
    destruct t' as [|e t']; [by inversion Hw'|].
    change (length (e :: t')) with (S (length t')) in Hrun.
    rewrite (loop_up remote _ _ _ _ _ _ _ Hb Htb) in Hrun.
    rewrite (loop_stale_None remote q (mkEntity below bname (Some q))) in Hrun;
      [done| |done|done].
    by apply received_no_content. }
  clear Hp Hc. revert Hw. generalize noneParents zeroEntity exit t.
  induction Hcl as [cur|cur name parent vs top H Hty Hcl IH];
    intros res entity exit' t' Hw.
  - by eapply Hno.
  - inversion Hw as [? ? ? Hrec|? ? ? e' Hrec Hdc|? ? ? e' Hrec _ Hpar
                    |? ? ? e' par ? ? Hrec _ Hpar Hw']; subst;
      rewrite (received_properties _ _ _ _ _ H) in Hrec; try discriminate;
      injection Hrec as <-; simpl in *; try congruence.
    injection Hpar as <-. by eapply IH.
Qed.

(** C10.  The claim fails on the code.  In [muted] the parent chain above
    the object is finite and acyclic: P1 names P2 as parent and P2 reports
    no parent.  The fetch of P2 returns no error and no content, so
    [entity], declared once before the loop, still holds P1 with its parent
    P2, and the loop fetches P2 again and again: the resolution returns
    with no amount of fuel. *)
Theorem getParents_spins_on_empty_answer :
  Acc (parent_of muted) P1 ∧
  Parent objA = Some P1 ∧
  ∀ fuel, getParents muted fuel objA ∅ = None.
Proof.
  split_and!.
  - constructor. intros q2 [n2 H2]. vm_compute in H2. injection H2 as _ <-.
    constructor. intros q3 [n3 H3]. vm_compute in H3. discriminate H3.
  - reflexivity.
  - intros fuel.
    apply (getParents_no_content_spins muted fuel objA P1 ∅ [] P1 "Resources" P2).
    + reflexivity.
    + apply lookup_empty.
    + apply climbs_here.
    + vm_refl.
    + discriminate.
    + vm_refl.
    + discriminate.
Qed.

(** * Further properties *)

Set Warnings "-clear-no-such-hyp".

(** ** Loops over items *)

Lemma mapM_cons_inv {A B} (f : A → M B) x l (c : CacheMap) bs c' t :
  mapM f (x :: l) c = Some (bs, c', t) →
  ∃ b c1 t1 bs' t2,
    f x c = Some (b, c1, t1) ∧ mapM f l c1 = Some (bs', c', t2) ∧
    bs = b :: bs' ∧ t = t1 ++ t2.
Proof.
  simpl. intros (b & c1 & t1 & t2 & Hf & Hrest & ->)%bind_Some.
  apply bind_Some in Hrest as (bs' & c2 & t2' & t3 & Hl & Hret & ->).
  unfold ret in Hret. injection Hret as <- <- <-.
  exists b, c1, t1, bs', t2'. by rewrite app_nil_r.
Qed.

Lemma mapM_cons_run {A B} (f : A → M B) x l (c : CacheMap) b c1 t1 bs c2 t2 :
  f x c = Some (b, c1, t1) →
  mapM f l c1 = Some (bs, c2, t2) →
  mapM f (x :: l) c = Some (b :: bs, c2, t1 ++ t2).
Proof.
  intros Hf Hl. simpl. rewrite (bind_step _ _ _ _ _ _ Hf).
  rewrite (bind_step _ _ _ _ _ _ Hl). unfold ret. by rewrite app_nil_r.
Qed.

(** An invariant of the cache kept by every call is kept by the loop, and
    what every call guarantees of its result holds item by item. *)
Lemma mapM_invariant {A B} (f : A → M B)
    (I : CacheMap → Prop) (R : A → B → Prop) :
  (∀ a c b c' t, I c → f a c = Some (b, c', t) → I c' ∧ R a b) →
  ∀ l c bs c' t, I c → mapM f l c = Some (bs, c', t) → I c' ∧ Forall2 R l bs.
Proof.
  intros Hstep. induction l as [|x l IH]; intros c bs c' t HI Hrun.
  - injection Hrun as <- <- <-. by split.
  - apply mapM_cons_inv in Hrun as (b & c1 & t1 & bs' & t2 & Hf & Hl & -> & ->).
    destruct (Hstep _ _ _ _ _ HI Hf) as [HI1 HR].
    destruct (IH _ _ _ _ HI1 Hl) as [HI2 HF]. split; [done|]. by constructor.
Qed.

Lemma esxUpdate_inv remote fuel hss (c : CacheMap) rows c' t :
  esxUpdate remote fuel hss c = Some (rows, c', t) →
  ∃ t', mapM (getParents remote fuel) hss ∅ = Some (rows, c', t') ∧
        t = EvCacheFlush :: t'.
Proof.
  unfold esxUpdate. intros (u & c1 & t1 & t2 & Hflush & Hl & ->)%bind_Some.
  unfold ParentsCache.Flush in Hflush. injection Hflush as _ <- <-.
  by exists t2.
Qed.

Lemma esxUpdate_run remote fuel hss (c : CacheMap) rows c' t :
  mapM (getParents remote fuel) hss ∅ = Some (rows, c', t) →
  esxUpdate remote fuel hss c = Some (rows, c', EvCacheFlush :: t).
Proof.
  intros H. unfold esxUpdate.
  rewrite (bind_step _ _ c tt ∅ [EvCacheFlush]) by done. by rewrite H.
Qed.

(** ** The cache during a scrape *)

Lemma cache_sound_empty remote fuel : cache_sound remote fuel ∅.
Proof. intros p r H. by rewrite lookup_empty in H. Qed.

Lemma getParents_sound remote fuel me (c : CacheMap) r c' t :
  cache_sound remote fuel c →
  getParents remote fuel me c = Some (r, c', t) →
  cache_sound remote fuel c' ∧ uncached remote fuel me r.
Proof.
  intros Hs [(Hp & -> & -> & _)|[(p & Hp & Hc & -> & _)
    |[(p & tw & Hp & Hc & Hw & Hlen & -> & _)
     |(p & tw & Hp & Hc & Hw & Hlen & -> & -> & _)]]]%getParents_inv.
  - split; [done|]. eexists ∅, []. unfold getParents. by rewrite Hp.
  - split; [done|]. destruct (Hs _ _ Hc) as (tw & Hw & Hlen).
    eexists _, _. by eapply getParents_miss_break.
  - split.
    + intros q rq. rewrite lookup_insert. case_decide as Hq.
      * intros [= <-]. subst q. by exists tw.
      * apply Hs.
    + eexists _, _. by eapply getParents_miss_break.
  - split; [done|]. eexists _, _. by eapply getParents_miss_error.
Qed.

Lemma added_app t1 t2 : added (t1 ++ t2) = added t1 ++ added t2.
Proof. unfold added. apply omap_app. Qed.

Lemma added_walk remote p res entity exit t :
  walks remote p res entity exit t → added t = [].
Proof. induction 1; done. Qed.

Lemma walks_no_add remote p res entity exit t :
  walks remote p res entity exit t → ∀ key val, EvCacheAdd key val ∉ t.
Proof.
  induction 1 as [| | |cur res entity entity' parent exit t H Hty Hp Hw IH];
    intros key val Hin.
  - by apply list_elem_of_singleton in Hin.
  - by apply list_elem_of_singleton in Hin.
  - by apply list_elem_of_singleton in Hin.
  - apply elem_of_cons in Hin as [[=]|Hin]. by eapply IH.
Qed.

(** What one call adds: nothing, or its own parent, which was absent. *)
Lemma getParents_added remote fuel me (c : CacheMap) r c' t :
  getParents remote fuel me c = Some (r, c', t) →
  (added t = [] ∧ c' = c) ∨
  (∃ p, Parent me = Some p ∧ c !! p = None ∧ added t = [p] ∧ c' = <[p := r]> c).
Proof.
  intros [(Hp & -> & -> & ->)|[(p & Hp & Hc & -> & ->)
    |[(p & tw & Hp & Hc & Hw & Hlen & -> & ->)
     |(p & tw & Hp & Hc & Hw & Hlen & -> & -> & ->)]]]%getParents_inv.
  - by left.
  - by left.
  - right. exists p. split_and!; try done.
    change (EvCacheGet p :: ?x) with ([EvCacheGet p] ++ x).
    rewrite !added_app, (added_walk _ _ _ _ _ _ Hw). done.
  - left. split; [|done].
    change (EvCacheGet p :: ?x) with ([EvCacheGet p] ++ x).
    by rewrite !added_app, (added_walk _ _ _ _ _ _ Hw).
Qed.

(** The keys a loop of resolutions adds: pairwise distinct, absent before,
    parents of items, and exactly what the cache gains. *)
Lemma mapM_getParents_added remote fuel hss : ∀ (c : CacheMap) rows c' t,
  mapM (getParents remote fuel) hss c = Some (rows, c', t) →
  NoDup (added t) ∧
  (∀ k, k ∈ added t → c !! k = None ∧ ∃ me, me ∈ hss ∧ Parent me = Some k) ∧
  dom c' = dom c ∪ list_to_set (added t).
Proof.
  induction hss as [|me hss IH]; intros c rows c' t Hrun.
  - injection Hrun as <- <- <-. split_and!.
    + constructor.
    + intros k Hk. by apply elem_of_nil in Hk.
    + simpl. set_solver.
  - apply mapM_cons_inv in Hrun as (b & c1 & t1 & bs' & t2 & Hf & Hl & -> & ->).
    destruct (IH _ _ _ _ Hl) as (Hnd & Hin & Hdom).
    rewrite added_app.
    destruct (getParents_added _ _ _ _ _ _ _ Hf)
      as [[-> ->]|(p & Hp & Hc & -> & ->)]; simpl.
    + split_and!; [done| |by rewrite Hdom].
      intros k Hk. destruct (Hin k Hk) as [Hnone (me' & Hme & Hpar)].
      split; [done|]. exists me'. split; [by right|done].
    + split_and!.
      * constructor; [|done]. intros Hp2. destruct (Hin p Hp2) as [Hnone _].
        by rewrite lookup_insert_eq in Hnone.
      * intros k [->|Hk]%elem_of_cons.
        -- split; [done|]. exists me. split; [by left|done].
        -- destruct (Hin k Hk) as [Hnone (me' & Hme & Hpar)]. split.
           ++ rewrite lookup_insert in Hnone. by case_decide.
           ++ exists me'. split; [by right|done].
      * rewrite Hdom, dom_insert_L. set_solver.
Qed.

(** ** ParentsCache *)

(** X1.  After [Flush], [Get] of any key misses: it returns Go's zero record
    (three empty strings, not "NONE") and [false], whatever the cache held
    before, and the cache is empty. *)
Theorem Flush_then_Get_misses mor (c : CacheMap) :
  (let* _ := ParentsCache.Flush in ParentsCache.Get mor) c =
    Some ((mkParents "" "" "", false), ∅, [EvCacheFlush; EvCacheGet mor]).
Proof.
  rewrite (bind_step _ _ c tt ∅ [EvCacheFlush]) by done.
  by rewrite (Get_miss mor ∅ (lookup_empty mor)).
Qed.

(** X2.  [getParents] inserts only what is absent: every [Add] a call makes
    is under the object's own parent reference, that reference was not in
    the cache when the call began, and the record added is the one returned.
    Every entry that was in the cache is still there with the same record. *)
Theorem getParents_adds_only_absent remote fuel me (c : CacheMap) res c' t :
  getParents remote fuel me c = Some (res, c', t) →
  (∀ key val, EvCacheAdd key val ∈ t →
     Parent me = Some key ∧ c !! key = None ∧ val = res ∧ c' !! key = Some res) ∧
  (∀ key val, c !! key = Some val → c' !! key = Some val).
Proof.
  intros Hrun. split; [|intros key val; by eapply getParents_keeps].
  apply getParents_inv in Hrun
    as [(Hp & -> & -> & ->)|[(p & Hp & Hc & -> & ->)
    |[(p & tw & Hp & Hc & Hw & Hlen & -> & ->)
     |(p & tw & Hp & Hc & Hw & Hlen & -> & -> & ->)]]]; intros key val Hin.
  - by apply elem_of_nil in Hin.
  - by apply list_elem_of_singleton in Hin.
  - apply elem_of_cons in Hin as [[=]|Hin].
    apply elem_of_app in Hin as [Hin|Hin%list_elem_of_singleton].
    + by destruct (walks_no_add _ _ _ _ _ _ Hw key val).
    + injection Hin as -> ->. split_and!; try done. apply lookup_insert_eq.
  - apply elem_of_cons in Hin as [[=]|Hin].
    by destruct (walks_no_add _ _ _ _ _ _ Hw key val).
Qed.

Lemma getParents_adds_only_absent_witness :
  (∀ key val,
     EvCacheAdd key val ∈
       [EvCacheGet P1; EvRetrieveOne P1 true; EvRetrieveOne P2 true;
        EvRetrieveOne P3 true; EvCacheAdd P1 scenarioParents] →
     Parent objA = Some key ∧ (∅ : CacheMap) !! key = None ∧
     val = scenarioParents ∧
     ({[P1 := scenarioParents]} : CacheMap) !! key = Some scenarioParents) ∧
  (∀ key val, (∅ : CacheMap) !! key = Some val →
              ({[P1 := scenarioParents]} : CacheMap) !! key = Some val).
Proof.
  apply (getParents_adds_only_absent scenario 3 objA ∅).
  vm_refl.
Defined.

(** ** One scrape *)

(** X3.  The cache does not change what a scrape reports: every record a
    scrape returns is the record [getParents] returns for that object on an
    empty cache. *)
Theorem esxUpdate_cache_is_transparent remote fuel hss (c : CacheMap) rows c' t :
  esxUpdate remote fuel hss c = Some (rows, c', t) →
  Forall2 (λ me r, ∃ (c1 : CacheMap) t1,
                     getParents remote fuel me ∅ = Some (r, c1, t1)) hss rows.
Proof.
  intros (t' & Hrun & _)%esxUpdate_inv.
  eapply (mapM_invariant _ (cache_sound remote fuel) (uncached remote fuel));
    [|apply cache_sound_empty|exact Hrun].
  intros a c0 b c1 t1. apply getParents_sound.
Qed.

Lemma esxUpdate_cache_is_transparent_witness :
  Forall2 (λ me r, ∃ (c1 : CacheMap) t1,
                     getParents scenario 3 me ∅ = Some (r, c1, t1))
    [objC; objD] [scenarioParents; scenarioParents].
Proof.
  apply (esxUpdate_cache_is_transparent scenario 3 [objC; objD] staleCache
           [scenarioParents; scenarioParents] {[P1 := scenarioParents]}
           [EvCacheFlush; EvCacheGet P1;
            EvRetrieveOne P1 true; EvRetrieveOne P2 true; EvRetrieveOne P3 true;
            EvCacheAdd P1 scenarioParents; EvCacheGet P1]).
  vm_refl.
Defined.

(** From a cache that holds a parent, every resolution under that parent
    returns the cached record, whatever the inventory answers. *)
Lemma mapM_getParents_cached fuel (calls : list (Inventory * ManagedEntity)) :
  ∀ (c : CacheMap) rows c' t p r,
    c !! p = Some r →
    mapM (λ call, getParents call.1 fuel call.2) calls c = Some (rows, c', t) →
    ∀ j call rj,
      calls !! j = Some call → rows !! j = Some rj →
      Parent call.2 = Some p → rj = r.
Proof.
  induction calls as [|call0 calls IH]; intros c rows c' t p r Hc Hrun j call rj.
  - intros Hj. by rewrite lookup_nil in Hj.
  - apply mapM_cons_inv in Hrun as (b & c1 & t1 & bs & t2 & Hf & Hl & -> & ->).
    destruct j as [|j]; simpl.
    + intros [= <-] [= <-] Hp.
      rewrite (getParents_hit _ _ _ _ _ _ Hp Hc) in Hf. by injection Hf as <-.
    + intros Hj Hrj Hp.
      apply (IH c1 bs c' t2 p r (getParents_keeps _ _ _ _ _ _ _ _ _ Hf Hc) Hl
               j call rj Hj Hrj Hp).
Qed.

Lemma mapM_getParents_no_parent fuel (calls : list (Inventory * ManagedEntity)) :
  ∀ (c : CacheMap) rows c' t,
    mapM (λ call, getParents call.1 fuel call.2) calls c = Some (rows, c', t) →
    ∀ j call rj,
      calls !! j = Some call → rows !! j = Some rj →
      Parent call.2 = None → rj = noneParents.
Proof.
  induction calls as [|call0 calls IH]; intros c rows c' t Hrun j call rj.
  - intros Hj. by rewrite lookup_nil in Hj.
  - apply mapM_cons_inv in Hrun as (b & c1 & t1 & bs & t2 & Hf & Hl & -> & ->).
    destruct j as [|j]; simpl.
    + intros [= <-] [= <-] Hp. unfold getParents in Hf. rewrite Hp in Hf.
      by injection Hf as <-.
    + intros Hj Hrj Hp. by eapply IH.
Qed.

Lemma mapM_getParents_siblings fuel (calls : list (Inventory * ManagedEntity)) :
  ∀ (c : CacheMap) rows c' t i j call1 call2 r1 r2,
    mapM (λ call, getParents call.1 fuel call.2) calls c = Some (rows, c', t) →
    i < j →
    calls !! i = Some call1 → rows !! i = Some r1 →
    calls !! j = Some call2 → rows !! j = Some r2 →
    Parent call1.2 = Parent call2.2 →
    r1 = r2 ∨ r1 = errorParents.
Proof.
  induction calls as [|call0 calls IH];
    intros c rows c' t i j call1 call2 r1 r2 Hrun Hlt Hi Hri Hj Hrj Hpar.
  - by rewrite lookup_nil in Hi.
  - apply mapM_cons_inv in Hrun as (b & c1 & t1 & bs & t2 & Hf & Hl & -> & ->).
    destruct j as [|j]; [lia|]. simpl in Hj, Hrj.
    destruct i as [|i]; simpl in Hi, Hri.
    + injection Hi as <-. injection Hri as <-.
      apply getParents_inv in Hf
        as [(Hp & -> & _)|[(p & Hp & Hc & -> & _)
           |[(p & tw & Hp & _ & _ & _ & -> & _)|(p & tw & _ & _ & _ & _ & -> & _)]]].
      * left. symmetry. rewrite Hp in Hpar.
        by eapply mapM_getParents_no_parent.
      * left. symmetry. rewrite Hp in Hpar.
        by eapply (mapM_getParents_cached fuel calls c).
      * left. symmetry. rewrite Hp in Hpar.
        eapply (mapM_getParents_cached fuel calls (<[p := b]> c));
          [apply lookup_insert_eq|done..].
      * by right.
    + eapply (IH c1 bs c' t2 i j); eauto. lia.
Qed.

(** X4.  Within one scrape, whatever the inventory answers at the time of
    each resolution: of two objects with the same parent reference the later
    one gets the record of the earlier one, unless the earlier resolution
    ended with the error record, which is not cached and so says nothing
    about the later one. *)
Theorem esxUpdate_siblings_agree fuel (calls : list (Inventory * ManagedEntity))
    (c : CacheMap) rows c' t i j call1 call2 r1 r2 :
  (let* _ := ParentsCache.Flush in
   mapM (λ call, getParents call.1 fuel call.2) calls) c = Some (rows, c', t) →
  i < j →
  calls !! i = Some call1 → rows !! i = Some r1 →
  calls !! j = Some call2 → rows !! j = Some r2 →
  Parent call1.2 = Parent call2.2 →
  r1 = r2 ∨ r1 = mkParents "ERROR" "ERROR" "ERROR".
Proof.
  intros (u & c1 & t1 & t2 & Hflush & Hrun & ->)%bind_Some.
  by eapply mapM_getParents_siblings.
Qed.

Lemma esxUpdate_siblings_agree_witness :
  (scenarioParents = scenarioParents ∨ scenarioParents = errorParents) ∧
  (errorParents = scenarioParents ∨ errorParents = errorParents).
Proof.
  split.
  - apply (esxUpdate_siblings_agree 3
             [(scenario, objC); (unreachable, objB); (unreachable, objD)] staleCache
             [scenarioParents; noneParents; scenarioParents]
             {[P1 := scenarioParents]}
             [EvCacheFlush; EvCacheGet P1;
              EvRetrieveOne P1 true; EvRetrieveOne P2 true; EvRetrieveOne P3 true;
              EvCacheAdd P1 scenarioParents; EvCacheGet P1]
             0 2 (scenario, objC) (unreachable, objD)
             scenarioParents scenarioParents);
      [vm_refl|lia|reflexivity..].
  - apply (esxUpdate_siblings_agree 3
             [(unreachable, objC); (scenario, objD)] staleCache
             [errorParents; scenarioParents]
             {[P1 := scenarioParents]}
             [EvCacheFlush; EvCacheGet P1; EvRetrieveOne P1 false;
              EvCacheGet P1;
              EvRetrieveOne P1 true; EvRetrieveOne P2 true; EvRetrieveOne P3 true;
              EvCacheAdd P1 scenarioParents]
             0 1 (unreachable, objC) (scenario, objD)
             errorParents scenarioParents);
      [vm_refl|lia|reflexivity..].
Defined.

(** X5.  In one scrape every parent reference is inserted into the cache
    at most once, each inserted key is the parent of one of the objects, and
    the cache at the end holds exactly the inserted keys. *)
Theorem esxUpdate_adds_each_parent_once remote fuel hss (c : CacheMap) rows c' t :
  esxUpdate remote fuel hss c = Some (rows, c', t) →
  NoDup (added t) ∧
  (∀ key, key ∈ added t → ∃ me, me ∈ hss ∧ Parent me = Some key) ∧
  dom c' = list_to_set (added t).
Proof.
  intros (t' & Hrun & ->)%esxUpdate_inv.
  destruct (mapM_getParents_added _ _ _ _ _ _ _ Hrun) as (Hnd & Hin & Hdom).
  change (added (EvCacheFlush :: t')) with (added t'). split_and!; [done| |].
  - intros key Hk. by destruct (Hin key Hk).
  - rewrite Hdom, dom_empty_L. set_solver.
Qed.

Lemma esxUpdate_adds_each_parent_once_witness :
  NoDup [P1] ∧
  (∀ key, key ∈ [P1] → ∃ me, me ∈ [objC; objD] ∧ Parent me = Some key) ∧
  dom ({[P1 := scenarioParents]} : CacheMap) = list_to_set [P1].
Proof.
  apply (esxUpdate_adds_each_parent_once scenario 3 [objC; objD] staleCache
           [scenarioParents; scenarioParents] {[P1 := scenarioParents]}
           [EvCacheFlush; EvCacheGet P1;
            EvRetrieveOne P1 true; EvRetrieveOne P2 true; EvRetrieveOne P3 true;
            EvCacheAdd P1 scenarioParents; EvCacheGet P1]).
  vm_refl.
Defined.

(** X6.  Whatever a scrape leaves in the cache is the record of a walk from
    the key that completed: none of that walk's fetches failed.  The record
    of a failed walk is never among the entries. *)
Theorem esxUpdate_caches_completed_walks remote fuel hss (c : CacheMap) rows c' t
    key val :
  esxUpdate remote fuel hss c = Some (rows, c', t) →
  c' !! key = Some val →
  ∃ tw, walks remote key (mkParents "NONE" "NONE" "NONE") zeroEntity (Break val) tw ∧
        length tw ≤ fuel ∧
        ∀ ref, EvRetrieveOne ref false ∉ tw.
Proof.
  intros (t' & Hrun & _)%esxUpdate_inv Hk.
  destruct (mapM_invariant _ (cache_sound remote fuel) (uncached remote fuel)
              (λ a c0 b c1 t1, getParents_sound remote fuel a c0 b c1 t1)
              _ _ _ _ _ (cache_sound_empty remote fuel) Hrun) as [Hs _].
  destruct (Hs _ _ Hk) as (tw & Hw & Hlen). exists tw. split_and!; [done..|].
  by eapply walks_break_no_failure.
Qed.

Lemma esxUpdate_caches_completed_walks_witness :
  ∃ tw, walks scenario P1 (mkParents "NONE" "NONE" "NONE") zeroEntity
          (Break scenarioParents) tw ∧
        length tw ≤ 3 ∧
        ∀ ref, EvRetrieveOne ref false ∉ tw.
Proof.
  apply (esxUpdate_caches_completed_walks scenario 3 [objC; objD] staleCache
           [scenarioParents; scenarioParents] {[P1 := scenarioParents]}
           [EvCacheFlush; EvCacheGet P1;
            EvRetrieveOne P1 true; EvRetrieveOne P2 true; EvRetrieveOne P3 true;
            EvCacheAdd P1 scenarioParents; EvCacheGet P1]
           P1 scenarioParents).
  - vm_refl.
  - vm_refl.
Defined.

Lemma fetches_fetched_ok vs : fetches (fetched_ok vs) = fst <$> vs.
Proof. induction vs as [|v vs IH]; [done|]. simpl. f_equal. exact IH. Qed.

(** A call returns as soon as the fuel covers the walk from the parent,
    whatever the cache holds. *)
Lemma getParents_returns remote fuel me (c : CacheMap) :
  (∀ p, Parent me = Some p →
        ∃ exit t, walks remote p noneParents zeroEntity exit t ∧ length t ≤ fuel) →
  ∃ r, getParents remote fuel me c = Some r.
Proof.
  intros Hw. destruct (Parent me) as [p|] eqn:Hp.
  - destruct (c !! p) as [cached|] eqn:Hc.
    + eexists. by eapply getParents_hit.
    + destruct (Hw p eq_refl) as ([res|] & t & Hwalk & Hlen).
      * eexists. by eapply getParents_miss_break.
      * eexists. by eapply getParents_miss_error.
  - eexists. unfold getParents. by rewrite Hp.
Qed.

Lemma mapM_returns {A B} (f : A → M B) (l : list A) :
  (∀ x, x ∈ l → ∀ c, ∃ r, f x c = Some r) →
  ∀ c, ∃ r, mapM f l c = Some r.
Proof.
  induction l as [|x l IH]; intros Hf c.
  - by eexists.
  - destruct (Hf x ltac:(by left) c) as [[[b c1] t1] Hx].
    destruct (IH (λ y Hy, Hf y ltac:(by right)) c1) as [[[bs c2] t2] Hl].
    eexists. by eapply mapM_cons_run.
Qed.

(** One amount of fuel that covers the walks of all objects of a list. *)
Lemma table_answers rows ref : table rows ref ≠ NoContent.
Proof. unfold table. by destruct (List.find _ rows). Qed.

Lemma walks_bound remote (hss : list ManagedEntity) :
  (∀ ref, remote ref ≠ NoContent) →
  (∀ me p, me ∈ hss → Parent me = Some p → Acc (parent_of remote) p) →
  ∃ fuel, ∀ me p, me ∈ hss → Parent me = Some p →
            ∃ exit t, walks remote p noneParents zeroEntity exit t ∧ length t ≤ fuel.
Proof.
  intros Hans. induction hss as [|me hss IH]; intros Hacc.
  - exists 0. intros me p Hin. by apply elem_of_nil in Hin.
  - destruct IH as [fuel Hfuel].
    { intros me' p Hin. apply Hacc. by right. }
    destruct (Parent me) as [p|] eqn:Hp.
    + destruct (walks_of_Acc remote p Hans
                  (Acc_walk_edge_of_parent _ _ (Hacc me p ltac:(by left) Hp))
                  noneParents zeroEntity) as (exit & t & Hw).
      exists (fuel `max` length t). intros me' p' [->|Hin]%elem_of_cons Hp'.
      * rewrite Hp in Hp'. injection Hp' as <-. exists exit, t. split; [done|lia].
      * destruct (Hfuel me' p' Hin Hp') as (exit' & t' & Hw' & Hlen).
        exists exit', t'. split; [done|lia].
    + exists fuel. intros me' p' [->|Hin]%elem_of_cons Hp'; [congruence|].
      exact (Hfuel me' p' Hin Hp').
Qed.

(** X7.  When every fetch comes back with an error or with the object's
    properties, a scrape over objects whose parent chains are finite and
    acyclic returns: some amount of fuel suffices, for any larger amount and
    any initial cache. *)
Theorem esxUpdate_terminates remote (hss : list ManagedEntity) :
  (∀ ref, remote ref ≠ NoContent) →
  (∀ me p, me ∈ hss → Parent me = Some p → Acc (parent_of remote) p) →
  ∃ fuel, ∀ fuel' (c : CacheMap), fuel ≤ fuel' →
    ∃ r, esxUpdate remote fuel' hss c = Some r.
Proof.
  intros Hans (fuel & Hfuel)%(walks_bound _ _ Hans). exists fuel.
  intros fuel' c Hle.
  destruct (mapM_returns (getParents remote fuel') hss) with (c := (∅ : CacheMap))
    as [[[rows c'] t] Hrun].
  - intros me Hin c0. apply getParents_returns. intros p Hp.
    destruct (Hfuel me p Hin Hp) as (exit & t & Hw & Hlen).
    exists exit, t. split; [done|lia].
  - eexists. by apply esxUpdate_run.
Qed.

Lemma esxUpdate_terminates_witness :
  ∃ fuel, ∀ fuel' (c : CacheMap), fuel ≤ fuel' →
    ∃ r, esxUpdate rooted fuel' [objB; objPod] c = Some r.
Proof.
  apply (esxUpdate_terminates rooted [objB; objPod]).
  { apply table_answers. }
  intros me p Hin Hp.
  apply elem_of_cons in Hin as [->|Hin]; [discriminate Hp|].
  apply list_elem_of_singleton in Hin as ->. injection Hp as <-.
  constructor. intros q2 [n2 H2]. vm_compute in H2. injection H2 as _ <-.
  constructor. intros q3 [n3 H3]. vm_compute in H3. injection H3 as _ <-.
  constructor. intros q4 [n4 H4]. vm_compute in H4. injection H4 as _ <-.
  constructor. intros q5 [n5 H5]. vm_compute in H5. discriminate H5.
Defined.

Lemma mapM_remote_down remote k (hss : list ManagedEntity) :
  (∀ me p, me ∈ hss → Parent me = Some p → remote p = Fault) →
  ∃ t, mapM (getParents remote (S k)) hss ∅ = Some (unresolved <$> hss, ∅, t) ∧
       fetches t = omap Parent hss ∧ added t = [].
Proof.
  induction hss as [|me hss IH]; intros Hdown.
  - by exists [].
  - destruct IH as (t & Hrun & Hf & Ha).
    { intros me' p Hin. apply Hdown. by right. }
    destruct (Parent me) as [p|] eqn:Hp.
    + eexists. split.
      * eapply mapM_cons_run; [|exact Hrun].
        rewrite (getParents_miss_failure remote (S k) me p ∅ [] p Hp
                   (lookup_empty p) (climbs_here _ _)
                   (Hdown me p ltac:(by left) Hp) ltac:(simpl; lia)).
        unfold unresolved. by rewrite Hp.
      * rewrite fetches_app, added_app, Hf, Ha. simpl. by rewrite Hp.
    + eexists. split.
      * eapply mapM_cons_run; [|exact Hrun].
        unfold getParents, unresolved. by rewrite Hp.
      * simpl. by rewrite Hp.
Qed.

(** X8.  When the fetch of every object's parent fails, the scrape still
    returns without error: every object with a parent gets the error record,
    every object without one the "NONE" record, nothing is cached, and there
    is one failed fetch per object with a parent, siblings included. *)
Theorem esxCollector_Update_remote_down remote k (hss : list ManagedEntity) (c : CacheMap) :
  (∀ me p, me ∈ hss → Parent me = Some p → remote p = Fault) →
  ∃ t, esxCollector_Update remote (S k) (Retrieved hss) c =
         Some ((None, unresolved <$> hss), ∅, t) ∧
       fetches t = omap Parent hss ∧
       added t = [].
Proof.
  intros (t & Hrun & Hf & Ha)%(mapM_remote_down remote k).
  exists (EvCacheFlush :: t ++ []). split.
  - unfold esxCollector_Update.
    rewrite (bind_step _ _ c tt ∅ [EvCacheFlush]) by done.
    by rewrite (bind_step _ _ _ _ _ _ Hrun).
  - rewrite app_nil_r. done.
Qed.

Lemma esxCollector_Update_remote_down_witness :
  ∃ t, esxCollector_Update unreachable 1 (Retrieved [objC; objB; objD]) staleCache =
         Some ((None, [errorParents; noneParents; errorParents]), ∅, t) ∧
       fetches t = [P1; P1] ∧
       added t = [].
Proof.
  apply (esxCollector_Update_remote_down unreachable 0 [objC; objB; objD] staleCache).
  reflexivity.
Defined.

(** X9.  A chain that ends at a node without parent that is not a datacenter
    is not an error: the record has "NONE" as datacenter, every node of the
    chain is fetched once, and the record is cached under the parent the walk
    started from. *)
Theorem getParents_chain_without_datacenter
    remote fuel me p (c : CacheMap) vs top tname :
  Parent me = Some p →
  c !! p = None →
  climbs remote p vs top →
  remote top = Properties tname None →
  Type' top ≠ "Datacenter" →
  length vs < fuel →
  ∃ res c' t,
    getParents remote fuel me c = Some (res, c', t) ∧
    dc res = "NONE" ∧
    c' !! p = Some res ∧
    fetches t = (fst <$> vs) ++ [top].
Proof.
  intros Hp Hc Hcl Hr Hty Hlen. eexists _, _, _. split.
  - eapply getParents_miss_path; eauto.
  - split_and!.
    + rewrite final_record_dc. simpl. by rewrite decide_False.
    + apply lookup_insert_eq.
    + change (EvCacheGet p :: ?x) with ([EvCacheGet p] ++ x).
      rewrite !fetches_app, fetches_fetched_ok, fmap_app. simpl.
      by rewrite app_nil_r.
Qed.

Lemma getParents_chain_without_datacenter_witness :
  ∃ res (c' : CacheMap) t,
    getParents nested 4 objA ∅ = Some (res, c', t) ∧
    dc res = "NONE" ∧
    c' !! P1 = Some res ∧
    fetches t = [P1; innerCluster; P2; strayFolder].
Proof.
  apply (getParents_chain_without_datacenter nested 4 objA P1 ∅
           [(P1, "Resources"); (innerCluster, "Inner"); (P2, "ClusterX")]
           strayFolder "host").
  - reflexivity.
  - apply lookup_empty.
  - climb.
  - vm_refl.
  - discriminate.
  - simpl. lia.
Defined.

(** X10.  With several cluster nodes on the path the later one overwrites
    the earlier: the record carries the name of the cluster node farthest
    from the object, and likewise for storage pods. *)
Theorem getParents_farthest_cluster_wins
    remote fuel me p (c : CacheMap) vs top tname tparent :
  Parent me = Some p →
  c !! p = None →
  climbs remote p vs top →
  remote top = Properties tname tparent →
  Type' top = "Datacenter" ∨ tparent = None →
  length vs < fuel →
  ∃ res c' t,
    getParents remote fuel me c = Some (res, c', t) ∧
    (∀ l1 cl cname l2,
       vs ++ [(top, tname)] = l1 ++ (cl, cname) :: l2 →
       Type' cl = "ClusterComputeResource" →
       Forall (λ node, Type' node.1 ≠ "ClusterComputeResource") l2 →
       cluster res = cname) ∧
    (∀ l1 sp sname l2,
       vs ++ [(top, tname)] = l1 ++ (sp, sname) :: l2 →
       Type' sp = "StoragePod" →
       Forall (λ node, Type' node.1 ≠ "StoragePod") l2 →
       spod res = sname).
Proof.
  intros Hp Hc Hcl Hr Hstop Hlen. eexists _, _, _. split.
  - eapply getParents_miss_path; eauto.
  - split.
    + intros l1 cl cname l2 Hsplit Hty Hl2.
      rewrite final_record_cluster, Hsplit. by apply visit_all_cluster_last.
    + intros l1 sp sname l2 Hsplit Hty Hl2.
      rewrite final_record_spod, Hsplit. by apply visit_all_spod_last.
Qed.

Lemma getParents_farthest_cluster_wins_witness :
  ∃ res (c' : CacheMap) t,
    getParents nested 4 objA ∅ = Some (res, c', t) ∧
    cluster res = "ClusterX".
Proof.
  destruct (getParents_farthest_cluster_wins nested 4 objA P1 ∅
              [(P1, "Resources"); (innerCluster, "Inner"); (P2, "ClusterX")]
              strayFolder "host" None)
    as (res & c' & t & Hrun & Hcl & _).
  - reflexivity.
  - apply lookup_empty.
  - climb.
  - vm_refl.
  - by right.
  - simpl. lia.
  - exists res, c', t. split; [done|].
    apply (Hcl [(P1, "Resources"); (innerCluster, "Inner")] P2 "ClusterX"
               [(strayFolder, "host")]).
    + reflexivity.
    + reflexivity.
    + repeat constructor. discriminate.
Defined.

(** ** The VM collector's resolvers *)

(** X11.  [getVMHostSystem] always returns and leaves the cache alone.
    Without a runtime host it returns nil and fetches nothing.  With one it
    makes exactly one fetch, of that reference: nil if the fetch fails, the
    fetched entity otherwise (the zero entity when the fetch delivers
    nothing). *)
Theorem getVMHostSystem_single_fetch remote me (c : CacheMap) :
  ∃ r t,
    getVMHostSystem remote me c = Some (r, c, t) ∧
    cache_ops t = [] ∧
    match Summary_Runtime_Host me with
    | None => r = None ∧ t = []
    | Some host =>
        fetches t = [host] ∧
        match remote host with
        | Fault => r = None ∧ t = [EvRetrieveOne host false]
        | NoContent => r = Some zeroEntity ∧ t = [EvRetrieveOne host true]
        | Properties name parent =>
            r = Some (mkEntity host name parent) ∧ t = [EvRetrieveOne host true]
        end
    end.
Proof.
  unfold getVMHostSystem. destruct (Summary_Runtime_Host me) as [host|].
  - unfold bind, RetrieveOne, received.
    destruct (remote host) as [| |name parent] eqn:Hr; by eexists _, _.
  - by eexists _, _.
Qed.

Lemma getVMHostSystem_run remote me (c : CacheMap) :
  getVMHostSystem remote me c =
    match Summary_Runtime_Host me with
    | None => Some (None, c, [])
    | Some host =>
        match remote host with
        | Fault => Some (None, c, [EvRetrieveOne host false])
        | NoContent => Some (Some zeroEntity, c, [EvRetrieveOne host true])
        | Properties name parent =>
            Some (Some (mkEntity host name parent), c, [EvRetrieveOne host true])
        end
    end.
Proof.
  unfold getVMHostSystem. destruct (Summary_Runtime_Host me) as [host|]; [|done].
  unfold bind, RetrieveOne, received. by destruct (remote host).
Qed.

(** X12.  The "esx" label of a VM is the fetched name of its runtime host,
    and "NONE" when the VM reports no host or the host's fetch fails (the
    empty string when the fetch delivers nothing).  The host is fetched
    last, after the ancestry has been resolved, and its lookup changes
    neither the cache nor the other labels. *)
Theorem vmLabels_esx_label remote fuel item (c : CacheMap) labels c' t :
  vmLabels remote fuel item c = Some (labels, c', t) →
  esxName labels =
    match Summary_Runtime_Host item with
    | None => "NONE"
    | Some host =>
        match remote host with
        | Fault => "NONE"
        | NoContent => ""
        | Properties name _ => name
        end
    end ∧
  ∃ t12 t3,
    t = t12 ++ t3 ∧
    fetches t3 = option_list (Summary_Runtime_Host item) ∧
    cache_ops t3 = [].
Proof.
  intros (pool & t1 & t2 & host & t3 & Hpool & Hgp & Hpn & Hhost & Hesx & ->)
    %vmLabels_inv.
  rewrite getVMHostSystem_run in Hhost. rewrite Hesx. split.
  - destruct (Summary_Runtime_Host item) as [h|]; [|by injection Hhost as <-].
    destruct (remote h) as [| |name parent]; by injection Hhost as <-.
  - exists (t1 ++ t2), t3. rewrite app_assoc. split; [done|].
    destruct (Summary_Runtime_Host item) as [h|]; [|by injection Hhost as _ <-].
    destruct (remote h) as [| |name parent]; by injection Hhost as _ <-.
Qed.

Lemma vmLabels_esx_label_witness :
  "esx-21.example.org" =
    match Summary_Runtime_Host vmOnHost with
    | None => "NONE"
    | Some host =>
        match hosted host with
        | Fault => "NONE"
        | NoContent => ""
        | Properties name _ => name
        end
    end ∧
  ∃ t12 t3,
    [EvRetrieveOne P1 true; EvCacheGet P2; EvRetrieveOne P2 true;
     EvRetrieveOne P3 true; EvCacheAdd P2 scenarioParents;
     EvRetrieveOne hostRef true] = t12 ++ t3 ∧
    fetches t3 = option_list (Summary_Runtime_Host vmOnHost) ∧
    cache_ops t3 = [].
Proof.
  apply (vmLabels_esx_label hosted 3 vmOnHost ∅
           (mkVMLabels scenarioParents "Resources" "esx-21.example.org")
           {[P2 := scenarioParents]}).
  vm_refl.
Defined.

Lemma getVMPool_cache_indep remote me (c c0 : CacheMap) r t :
  getVMPool remote me c = Some (r, c, t) →
  getVMPool remote me c0 = Some (r, c0, t).
Proof.
  unfold getVMPool. destruct (ResourcePool me) as [pool|].
  - unfold bind, RetrieveOne. destruct (received remote pool zeroEntity);
      by intros [= <- <-].
  - by intros [= <- <-].
Qed.

Lemma vmLabels_sound remote fuel item (c : CacheMap) labels c' t :
  cache_sound remote fuel c →
  vmLabels remote fuel item c = Some (labels, c', t) →
  cache_sound remote fuel c' ∧
  ∃ (c1 : CacheMap) t1, vmLabels remote fuel item ∅ = Some (labels, c1, t1).
Proof.
  intros Hs (pool & t1 & t2 & host & t3 & Hpool & Hgp & Hpn & Hhost & Hesx & ->)
    %vmLabels_inv.
  destruct (getParents_sound _ _ _ _ _ _ _ Hs Hgp) as [Hs' (c1 & t2' & Hun)].
  split; [done|].
  apply (getVMPool_cache_indep _ _ _ ∅) in Hpool.
  destruct (vmLabels_run remote fuel item ∅ pool t1 _ c1 t2' Hpool Hun)
    as (host' & t3' & Hhost' & Hrun).
  rewrite getVMHostSystem_run in Hhost, Hhost'.
  assert (host' = host) as ->.
  { destruct (Summary_Runtime_Host item) as [h|]; [|congruence].
    destruct (remote h) as [| |name parent]; congruence. }
  exists c1, (t1 ++ t2' ++ t3'). rewrite Hrun.
  destruct labels as [ps pn en]. simpl in *. by subst.
Qed.

(** X13.  In a scrape of the VM collector too the cache does not change what
    is reported: the labels of every VM are the ones [vmLabels] computes for
    it on an empty cache. *)
Theorem vmUpdate_cache_is_transparent remote fuel items (c : CacheMap) rows c' t :
  vmUpdate remote fuel items c = Some (rows, c', t) →
  Forall2 (λ item labels, ∃ (c1 : CacheMap) t1,
             vmLabels remote fuel item ∅ = Some (labels, c1, t1)) items rows.
Proof.
  unfold vmUpdate. intros (u & c1 & t1 & t2 & Hflush & Hrun & ->)%bind_Some.
  unfold ParentsCache.Flush in Hflush. injection Hflush as _ <- _.
  eapply (mapM_invariant _ (cache_sound remote fuel));
    [|apply cache_sound_empty|exact Hrun].
  intros a c0 b c2 t0. apply vmLabels_sound.
Qed.

Lemma vmUpdate_cache_is_transparent_witness :
  Forall2 (λ item labels, ∃ (c1 : CacheMap) t1,
             vmLabels hosted 3 item ∅ = Some (labels, c1, t1))
    [vmOnHost; vmLostHost]
    [mkVMLabels scenarioParents "Resources" "esx-21.example.org";
     mkVMLabels scenarioParents "Resources" "NONE"].
Proof.
  apply (vmUpdate_cache_is_transparent hosted 3 [vmOnHost; vmLostHost] staleCache
           [mkVMLabels scenarioParents "Resources" "esx-21.example.org";
            mkVMLabels scenarioParents "Resources" "NONE"]
           {[P2 := scenarioParents]}
           [EvCacheFlush;
            EvRetrieveOne P1 true; EvCacheGet P2; EvRetrieveOne P2 true;
            EvRetrieveOne P3 true; EvCacheAdd P2 scenarioParents;
            EvRetrieveOne hostRef true;
            EvRetrieveOne P1 true; EvCacheGet P2;
            EvRetrieveOne lostHost false]).
  vm_refl.
Defined.

(** ** The collectors' Update *)

(** X14.  Every scrape starts afresh: what [Update] returns, does and leaves
    in the cache does not depend on what the cache held before.  When
    connecting or the bulk retrieve fails, [Update] returns that error
    without a row and without a fetch, and the shared cache has been emptied
    all the same, the flush coming first. *)
Theorem esxCollector_Update_starts_afresh remote fuel api (c c0 : CacheMap) :
  esxCollector_Update remote fuel api c = esxCollector_Update remote fuel api c0 ∧
  (∀ err, api = ConnectError err ∨ api = RetrieveError err →
     esxCollector_Update remote fuel api c = Some ((Some err, []), ∅, [EvCacheFlush])).
Proof.
  unfold esxCollector_Update. split.
  - rewrite (bind_step _ _ c tt ∅ [EvCacheFlush]) by done.
    by rewrite (bind_step _ _ c0 tt ∅ [EvCacheFlush]) by done.
  - intros err [-> | ->]; by rewrite (bind_step _ _ c tt ∅ [EvCacheFlush]) by done.
Qed.

Lemma esxCollector_Update_starts_afresh_witness :
  esxCollector_Update scenario 3 (ConnectError "dial tcp: timeout") staleCache
    = Some ((Some "dial tcp: timeout", []), ∅, [EvCacheFlush]).
Proof.
  apply (proj2 (esxCollector_Update_starts_afresh scenario 3
                  (ConnectError "dial tcp: timeout") staleCache ∅)).
  by left.
Defined.

Lemma resourcePoolLoop_skip remote fuel vc item items :
  skipped item = true →
  resourcePoolLoop remote fuel vc (item :: items) =
    resourcePoolLoop remote fuel vc items.
Proof.
  unfold skipped. simpl. destruct (rpSummary item) as [[summary|]|]; [|done..].
  by intros ->.
Qed.

Lemma resourcePoolLoop_panic remote fuel vc item items (c : CacheMap) :
  rpSummary item = None →
  resourcePoolLoop remote fuel vc (item :: items) c = Some (([], true), c, []).
Proof. simpl. by intros ->. Qed.

Lemma resourcePoolLoop_cons_inv remote fuel vc item items (c : CacheMap)
    rows panicked c' t :
  has_stats item = true →
  resourcePoolLoop remote fuel vc (item :: items) c = Some ((rows, panicked), c', t) →
  ∃ summary tmp c1 t1 rest t2,
    rpSummary item = Some (Some summary) ∧
    getParents remote fuel (rpManagedEntity item) c = Some (tmp, c1, t1) ∧
    resourcePoolLoop remote fuel vc items c1 = Some ((rest, panicked), c', t2) ∧
    rows = [vc; dc tmp; rpsName summary] :: rest ∧ t = t1 ++ t2.
Proof.
  unfold has_stats. simpl. destruct (rpSummary item) as [[summary|]|]; [|done..].
  intros ->. simpl.
  intros (tmp & c1 & t1 & t2 & Hgp & Hrest & ->)%bind_Some.
  apply bind_Some in Hrest as ([rest p] & c2 & t2' & t3 & Hl & Hret & ->).
  unfold ret in Hret. simpl in Hret. injection Hret as <- <- <- <-.
  exists summary, tmp, c1, t1, rest, t2'. by rewrite app_nil_r.
Qed.

(** Every pool is of one of three kinds. *)
Lemma resourcePool_kinds item :
  (rpSummary item = None ∧ skipped item = false ∧ has_stats item = false) ∨
  (rpSummary item ≠ None ∧ skipped item = true ∧ has_stats item = false) ∨
  (rpSummary item ≠ None ∧ skipped item = false ∧ has_stats item = true).
Proof.
  unfold skipped, has_stats.
  destruct (rpSummary item) as [[[name [|]]|]|]; simpl; naive_solver.
Qed.

(** X15.  The resource pool collector passes over every pool whose summary
    is a nil pointer or has no quick statistics: such a pool causes no
    ancestry resolution (no fetch, no cache operation) and no row, the loop
    behaving as if the pool were not in the list.  A pool whose [Summary]
    is unset makes the loop panic when it is reached, before anything is
    done for it.  When the loop returns, no pool had an unset summary and
    every pool with quick statistics gave one row of three label values
    with "vc" first. *)
Theorem resourcePoolLoop_skips_without_stats remote fuel vc items :
  resourcePoolLoop remote fuel vc items =
    resourcePoolLoop remote fuel vc (List.filter (λ item, negb (skipped item)) items) ∧
  (∀ (c : CacheMap) rows c' t,
     resourcePoolLoop remote fuel vc items c = Some ((rows, false), c', t) →
     Forall (λ item, rpSummary item ≠ None) items ∧
     length rows = length (List.filter has_stats items) ∧
     Forall (λ row, length row = 3 ∧ head row = Some vc) rows) ∧
  (∀ (c : CacheMap) item items',
     items = item :: items' →
     rpSummary item = None →
     resourcePoolLoop remote fuel vc items c = Some (([], true), c, [])).
Proof.
  split_and!.
  - induction items as [|item items IH]; [done|].
    simpl List.filter. destruct (skipped item) eqn:Hs; simpl negb; cbv iota.
    + by rewrite resourcePoolLoop_skip.
    + simpl. destruct (rpSummary item) as [[summary|]|] eqn:Hsum; [|done..].
      unfold skipped in Hs. rewrite Hsum in Hs. rewrite Hs. by rewrite IH.
  - induction items as [|item items IH]; intros c rows c' t Hrun.
    + injection Hrun as <- <- <-. by split_and!.
    + simpl List.filter.
      destruct (resourcePool_kinds item) as [(Hu & _ & _)|[(Hu & Hs & Hh)|(Hu & Hs & Hh)]].
      * by rewrite resourcePoolLoop_panic in Hrun.
      * rewrite resourcePoolLoop_skip in Hrun by done. rewrite Hh.
        destruct (IH _ _ _ _ Hrun) as (Hall & Hlen & Hrows).
        split_and!; [by constructor|done..].
      * rewrite Hh.
        apply resourcePoolLoop_cons_inv in Hrun
          as (summary & tmp & c1 & t1 & rest & t2 & _ & _ & Hl & -> & _); [|done].
        destruct (IH _ _ _ _ Hl) as (Hall & Hlen & Hrows).
        split_and!; [by constructor| |by constructor].
        simpl. by rewrite Hlen.
  - intros c item items' -> Hu. by apply resourcePoolLoop_panic.
Qed.

Lemma resourcePoolLoop_skips_without_stats_witness :
  (Forall (λ item, rpSummary item ≠ None)
     [poolNoStats; poolWithStats; poolNilSummary] ∧
   length [["https://vc.example.org/sdk"; "DC1"; "prod"]] =
     length (List.filter has_stats [poolNoStats; poolWithStats; poolNilSummary]) ∧
   Forall (λ row, length row = 3 ∧ head row = Some "https://vc.example.org/sdk")
     [["https://vc.example.org/sdk"; "DC1"; "prod"]]) ∧
  resourcePoolLoop cyclic_scenario 3 "https://vc.example.org/sdk"
    [poolUnsetSummary; poolWithStats] ∅ = Some (([], true), ∅, []).
Proof.
  split.
  - apply (proj1 (proj2 (resourcePoolLoop_skips_without_stats cyclic_scenario 3
                    "https://vc.example.org/sdk"
                    [poolNoStats; poolWithStats; poolNilSummary]))
             ∅ [["https://vc.example.org/sdk"; "DC1"; "prod"]]
             {[P1 := scenarioParents]}
             [EvCacheGet P1; EvRetrieveOne P1 true; EvRetrieveOne P2 true;
              EvRetrieveOne P3 true; EvCacheAdd P1 scenarioParents]).
    vm_refl.
  - apply (proj2 (proj2 (resourcePoolLoop_skips_without_stats cyclic_scenario 3
                    "https://vc.example.org/sdk"
                    [poolUnsetSummary; poolWithStats]))
             ∅ poolUnsetSummary [poolWithStats]); reflexivity.
Defined.

(** ** The VM collector's samples *)

(** X16.  The VM collector sends as many label values as its descriptors
    have label names, with the Intrinsec labels switched on or off: for the
    per-VM samples, and for the ethernet, network and disk samples with
    their three, three and one further labels. *)
Theorem vm_label_values_match_names isec vc resolved item annotation
    edevices networks disks :
  let labelsValues := vmLabelsValues isec vc resolved item annotation in
  length labelsValues = length (vmLabelNames isec) ∧
  Forall (λ sample, length sample.2 = length (vmEthernetLabelNames isec))
    (ethernetSamples labelsValues edevices) ∧
  Forall (λ sample, length sample.2 = length (vmNetworkLabelNames isec))
    (networkSamples labelsValues networks) ∧
  Forall (λ sample, length sample.2 = length (vmDiskLabelNames isec))
    (diskSamples labelsValues disks).
Proof.
  intros labelsValues.
  assert (length labelsValues = length (vmLabelNames isec)) as Hlen.
  { unfold labelsValues, vmLabelsValues, vmLabelNames. by destruct isec. }
  split_and!; [done| | |].
  - unfold ethernetSamples, vmEthernetLabelNames. apply Forall_map, Forall_true.
    intros edev. simpl. rewrite !length_app, Hlen. done.
  - unfold networkSamples, vmNetworkLabelNames. apply Forall_flat_map, Forall_true.
    intros net. apply Forall_map, Forall_true. intros addr. simpl.
    rewrite !length_app, Hlen. done.
  - unfold diskSamples, vmDiskLabelNames. apply Forall_map, Forall_true.
    intros disk. simpl. rewrite !length_app, Hlen. done.
Qed.

(** X17.  [GetNetworks] of a VM with guest info returns, and the VM
    collector then sends one [network_connected] sample per IP address of
    every guest NIC, so a NIC without address has no sample at all; every
    sample of a NIC carries 1 if the NIC is connected and 0 if not.  On a
    VM without guest info [GetNetworks] panics. *)
Theorem networkSamples_one_per_address labelsValues guestNet :
  GetNetworks None = None ∧
  ∃ networks,
    GetNetworks (Some guestNet) = Some networks ∧
    length (networkSamples labelsValues networks) =
      sum_list (length <$> (gn_IpAddress <$> guestNet)) ∧
    networkSamples labelsValues networks =
      nic ← guestNet;
      (λ addr, (if gn_Connected nic then 1%Z else 0%Z,
                labelsValues ++ [gn_Network nic; gn_MacAddress nic; addr]))
        <$> gn_IpAddress nic.
Proof.
  split; [done|]. eexists. split; [done|].
  set (networks := map _ guestNet).
  assert (networkSamples labelsValues networks =
          nic ← guestNet;
          (λ addr, (if gn_Connected nic then 1%Z else 0%Z,
                    labelsValues ++ [gn_Network nic; gn_MacAddress nic; addr]))
            <$> gn_IpAddress nic) as Heq.
  { unfold networks, networkSamples.
    induction guestNet as [|nic guestNet IH]; [done|].
    simpl. by rewrite IH. }
  split; [|done]. rewrite Heq. clear.
  induction guestNet as [|nic guestNet IH]; [done|].
  simpl. rewrite length_app, length_fmap. f_equal. apply IH.
Qed.

(** X18.  [GetEthernetDevices] of a VM with configuration info reports the
    ethernet cards and nothing else: an entry is returned exactly for a
    device that is an ethernet card, with the card's MAC address, the device
    type name without a leading "Virtual", and the connection status and
    flag of the device, which are "unknown" and false for a card without
    connection information.  On a VM without configuration info it
    panics. *)
Theorem GetEthernetDevices_cards devices edev :
  GetEthernetDevices None = None ∧
  ∃ edevices,
    GetEthernetDevices (Some devices) = Some edevices ∧
    (edev ∈ edevices ↔
     ∃ dev MacAddress,
       dev ∈ devices ∧ kind dev = EthernetCard MacAddress ∧
       edev = mkEthernetDevice (deviceName dev)
                (TrimPrefix (deviceTypeName dev) "Virtual") MacAddress
                (from_option Status "unknown" (Connectable dev))
                (from_option Connected false (Connectable dev))).
Proof.
  split; [done|]. eexists. split; [done|].
  induction devices as [|dev devices IH].
  - split; [by intros ?%elem_of_nil|]. by intros (dev & m & ?%elem_of_nil & _).
  - simpl. destruct (kind dev) as [m| |] eqn:Hk.
    + assert (ethernetDevicesLoop_head :
        (let '(status, connected) :=
           match Connectable dev with
           | Some ca => (Status ca, Connected ca)
           | None => ("unknown", false)
           end in
         mkEthernetDevice (deviceName dev)
           (TrimPrefix (deviceTypeName dev) "Virtual") m status connected
           :: ethernetDevicesLoop devices) =
        mkEthernetDevice (deviceName dev)
           (TrimPrefix (deviceTypeName dev) "Virtual") m
           (from_option Status "unknown" (Connectable dev))
           (from_option Connected false (Connectable dev))
           :: ethernetDevicesLoop devices) by (by destruct (Connectable dev)).
      rewrite ethernetDevicesLoop_head, elem_of_cons, IH. split.
      * intros [->|(dev' & m' & Hin & Hk' & ->)].
        -- exists dev, m. split; [by left|done].
        -- exists dev', m'. split; [by right|done].
      * intros (dev' & m' & [->|Hin]%elem_of_cons & Hk' & ->).
        -- left. rewrite Hk in Hk'. by injection Hk' as <-.
        -- right. by exists dev', m'.
    + rewrite IH. split.
      * intros (dev' & m' & Hin & Hk' & ->). exists dev', m'. split; [by right|done].
      * intros (dev' & m' & [->|Hin]%elem_of_cons & Hk' & ->); [congruence|].
        by exists dev', m'.
    + rewrite IH. split.
      * intros (dev' & m' & Hin & Hk' & ->). exists dev', m'. split; [by right|done].
      * intros (dev' & m' & [->|Hin]%elem_of_cons & Hk' & ->); [congruence|].
        by exists dev', m'.
Qed.

Lemma GetEthernetDevices_cards_witness :
  ∃ edevices,
    GetEthernetDevices (Some [cdrom; nicCard; flatDisk; nicBare]) = Some edevices ∧
    mkEthernetDevice "ethernet-1" "E1000" "00:50:56:aa:bb:cd" "unknown" false
      ∈ edevices.
Proof.
  destruct (proj2 (GetEthernetDevices_cards [cdrom; nicCard; flatDisk; nicBare]
                     (mkEthernetDevice "ethernet-1" "E1000" "00:50:56:aa:bb:cd"
                        "unknown" false))) as (edevices & Hrun & Hin).
  exists edevices. split; [done|]. apply Hin.
  exists nicBare, "00:50:56:aa:bb:cd". split; [|split; reflexivity].
  do 3 right. by left.
Defined.

Lemma disksLoop_filter devices :
  disksLoop (SelectVirtualDisks devices) =
    match devices with
    | [] => Some []
    | dev :: devices' =>
        match kind dev with
        | VirtualDisk (FlatVer2BackingInfo FileName) CapacityInBytes =>
            match disksLoop (SelectVirtualDisks devices') with
            | Some res => Some (mkDisk FileName CapacityInBytes :: res)
            | None => None
            end
        | VirtualDisk OtherBacking _ => None
        | _ => disksLoop (SelectVirtualDisks devices')
        end
    end.
Proof.
  destruct devices as [|dev devices]; [done|].
  unfold SelectVirtualDisks. simpl. unfold isVirtualDisk.
  destruct (kind dev) as [m|[fn|] cap|] eqn:Hk; simpl; by rewrite ?Hk.
Qed.

Lemma disksLoop_devices devices :
  (disksLoop (SelectVirtualDisks devices) = None ↔
   ∃ dev CapacityInBytes,
     dev ∈ devices ∧ kind dev = VirtualDisk OtherBacking CapacityInBytes) ∧
  (∀ res, disksLoop (SelectVirtualDisks devices) = Some res →
     res = omap (λ dev, match kind dev with
                        | VirtualDisk (FlatVer2BackingInfo FileName) CapacityInBytes =>
                            Some (mkDisk FileName CapacityInBytes)
                        | _ => None
                        end) devices).
Proof.
  induction devices as [|dev devices [IHn IHs]].
  - split; [|by intros res [= <-]].
    split; [done|]. by intros (dev & cap & ?%elem_of_nil & _).
  - rewrite disksLoop_filter. destruct (kind dev) as [m|[fn|] cap|] eqn:Hk.
    + split.
      * rewrite IHn. split.
        -- intros (d & cap & Hin & Hd). exists d, cap. split; [by right|done].
        -- intros (d & cap & [->|Hin]%elem_of_cons & Hd); [congruence|].
           by exists d, cap.
      * intros res Hres. simpl. rewrite Hk. by apply IHs.
    + destruct (disksLoop (SelectVirtualDisks devices)) as [res'|] eqn:Hl.
      * split.
        -- split; [done|].
           intros (d & cap' & [->|Hin]%elem_of_cons & Hd); [congruence|].
           assert (Some res' = None) as Habs by (apply IHn; by exists d, cap').
           discriminate Habs.
        -- intros res [= <-]. simpl. rewrite Hk. f_equal. by apply IHs.
      * split; [|done]. split; [|done]. intros _.
        destruct IHn as [IHn _]. destruct (IHn eq_refl) as (d & cap' & Hin & Hd).
        exists d, cap'. split; [by right|done].
    + split; [|done]. split; [|done]. intros _. exists dev, cap.
      split; [by left|done].
    + split.
      * rewrite IHn. split.
        -- intros (d & cap & Hin & Hd). exists d, cap. split; [by right|done].
        -- intros (d & cap & [->|Hin]%elem_of_cons & Hd); [congruence|].
           by exists d, cap.
      * intros res Hres. simpl. rewrite Hk. by apply IHs.
Qed.

(** X19.  [GetDisks] panics exactly when the VM has no configuration info
    or has a virtual disk whose backing is not a
    [VirtualDiskFlatVer2BackingInfo]; devices that are not disks never
    matter.  Otherwise it returns, in device order, the file name and
    capacity of every virtual disk. *)
Theorem GetDisks_panics_on_other_backing Config :
  (GetDisks Config = None ↔
   Config = None ∨
   ∃ devices dev CapacityInBytes,
     Config = Some devices ∧
     dev ∈ devices ∧ kind dev = VirtualDisk OtherBacking CapacityInBytes) ∧
  (∀ devices res,
     Config = Some devices →
     GetDisks Config = Some res →
     res = omap (λ dev, match kind dev with
                        | VirtualDisk (FlatVer2BackingInfo FileName) CapacityInBytes =>
                            Some (mkDisk FileName CapacityInBytes)
                        | _ => None
                        end) devices).
Proof.
  destruct Config as [devices|]; simpl.
  - destruct (disksLoop_devices devices) as [Hn Hs]. split.
    + rewrite Hn. split.
      * intros (dev & cap & Hin & Hk). right. by exists devices, dev, cap.
      * intros [[=]|(devices' & dev & cap & [= <-] & Hin & Hk)]. by exists dev, cap.
    + intros devices' res [= <-]. apply Hs.
  - split; [|done]. split; [by left|done].
Qed.

Lemma GetDisks_panics_on_other_backing_witness :
  GetDisks (Some [nicCard; flatDisk; cdrom; rawDisk]) = None ∧
  GetDisks None = None ∧
  [mkDisk "[ds1] web/web.vmdk" 1073741824] =
    omap (λ dev, match kind dev with
                 | VirtualDisk (FlatVer2BackingInfo FileName) CapacityInBytes =>
                     Some (mkDisk FileName CapacityInBytes)
                 | _ => None
                 end) [nicCard; flatDisk; cdrom; nicBare].
Proof.
  split_and!.
  - apply (proj1 (GetDisks_panics_on_other_backing
                    (Some [nicCard; flatDisk; cdrom; rawDisk]))).
    right. exists [nicCard; flatDisk; cdrom; rawDisk], rawDisk, 1073741824%Z.
    split; [reflexivity|]. split; [|reflexivity].
    do 3 right. by left.
  - apply (proj1 (GetDisks_panics_on_other_backing None)). by left.
  - apply (proj2 (GetDisks_panics_on_other_backing
                    (Some [nicCard; flatDisk; cdrom; nicBare]))
             [nicCard; flatDisk; cdrom; nicBare]); reflexivity.
Defined.

(** ** Walks that end and walks that do not *)

(** X20.  The walk keeps no record of the nodes it has seen: when the
    object's parent is not cached and lies in a set of nodes that all answer
    with their properties, none a datacenter, each naming a parent in the
    set (a cycle of parent pointers, or a path into one), the resolution
    does not return, with any amount of fuel. *)
Theorem getParents_cycle_never_returns remote me (c : CacheMap)
    (S : ManagedObjectReference → Prop) p :
  Parent me = Some p →
  c !! p = None →
  trapped remote S →
  S p →
  ∀ fuel, getParents remote fuel me c = None.
Proof.
  intros Hp Hc HS Hin fuel.
  rewrite (getParents_miss remote fuel me p c Hp Hc).
  by rewrite (trapped_loop_None remote S p fuel noneParents zeroEntity c HS Hin).
Qed.

Lemma getParents_cycle_never_returns_witness :
  getParents cyclic 1000 objLoop ∅ = None.
Proof.
  refine (getParents_cycle_never_returns cyclic objLoop ∅
            (λ n, n = loopA ∨ n = loopB) loopA _ _ _ _ 1000).
  - reflexivity.
  - apply lookup_empty.
  - intros n [->| ->].
    + split; [discriminate|]. exists "a", loopB. split; [vm_refl|]. by right.
    + split; [discriminate|]. exists "b", loopA. split; [vm_refl|]. by left.
  - by left.
Defined.

(** X21.  When every fetch comes back with an error or with the object's
    properties, and the parent pointers above the object's parent are well
    founded (a finite chain without cycle), the resolution returns: some
    amount of fuel suffices and any larger amount gives the same result. *)
Theorem getParents_terminates_when_answered remote me (c : CacheMap) :
  (∀ ref, remote ref ≠ NoContent) →
  (∀ p, Parent me = Some p → Acc (parent_of remote) p) →
  ∃ fuel r, ∀ fuel', fuel ≤ fuel' → getParents remote fuel' me c = Some r.
Proof.
  intros Hans Hacc. destruct (Parent me) as [p|] eqn:Hp.
  - destruct (c !! p) as [cached|] eqn:Hc.
    + exists 0, (cached, c, [EvCacheGet p]). intros fuel' _.
      by apply getParents_hit.
    + destruct (walks_of_Acc remote p Hans
                  (Acc_walk_edge_of_parent _ _ (Hacc p eq_refl))
                  noneParents zeroEntity) as (exit & t & Hw).
      exists (length t). destruct exit as [res|].
      * eexists. intros fuel' Hle. by eapply getParents_miss_break.
      * eexists. intros fuel' Hle. by eapply getParents_miss_error.
  - exists 0, (noneParents, c, []). intros fuel' _.
    unfold getParents. by rewrite Hp.
Qed.

Lemma getParents_terminates_when_answered_witness :
  ∃ fuel r, ∀ fuel', fuel ≤ fuel' → getParents scenario fuel' objA ∅ = Some r.
Proof.
  apply (getParents_terminates_when_answered scenario objA ∅).
  - apply table_answers.
  - intros p [= <-].
    constructor. intros q2 [n2 H2]. vm_compute in H2. injection H2 as _ <-.
    constructor. intros q3 [n3 H3]. vm_compute in H3. injection H3 as _ <-.
    constructor. intros q4 [n4 H4]. vm_compute in H4. discriminate H4.
Defined.

(** X22.  A fetch that returns no error and no content leaves [entity] as
    the iteration before left it.  When that happens above the first node
    of the walk, at a node that is not a datacenter, [entity] still names
    that very node as parent and the resolution does not return: the node
    is fetched again and again. *)
Theorem getParents_spins_after_empty_answer remote me p (c : CacheMap)
    vs below bname q :
  Parent me = Some p →
  c !! p = None →
  climbs remote p vs below →
  remote below = Properties bname (Some q) →
  Type' below ≠ "Datacenter" →
  remote q = NoContent →
  Type' q ≠ "Datacenter" →
  ∀ fuel, getParents remote fuel me c = None.
Proof. intros ? ? ? ? ? ? ? fuel. by eapply getParents_no_content_spins. Qed.

Lemma getParents_spins_after_empty_answer_witness :
  getParents muted 1000 objA ∅ = None.
Proof.
  refine (getParents_spins_after_empty_answer muted objA P1 ∅
            [] P1 "Resources" P2 _ _ _ _ _ _ _ 1000).
  - reflexivity.
  - apply lookup_empty.
  - apply climbs_here.
  - vm_refl.
  - discriminate.
  - vm_refl.
  - discriminate.
Defined.

(** X23.  When the fetch of the object's parent itself returns no error and
    no content, [entity] is still the zero value: the walk stops at once,
    the record has the empty string where the parent's type puts its name
    and "NONE" elsewhere, and it is cached under the parent. *)
Theorem getParents_empty_answer_at_parent remote fuel me p (c : CacheMap) :
  Parent me = Some p →
  c !! p = None →
  remote p = NoContent →
  ∃ res,
    getParents remote (S fuel) me c =
      Some (res, <[p := res]> c,
            [EvCacheGet p; EvRetrieveOne p true; EvCacheAdd p res]) ∧
    res = mkParents (if decide (Type' p = "Datacenter") then "" else "NONE")
                    (if decide (Type' p = "ClusterComputeResource") then "" else "NONE")
                    (if decide (Type' p = "StoragePod") then "" else "NONE").
Proof.
  intros Hp Hc Hr.
  exists (if decide (Type' p = "Datacenter")
          then set_dc (Name zeroEntity) noneParents
          else visit (p, Name zeroEntity) noneParents).
  split.
  - eapply (getParents_miss_break remote (S fuel) me p c _ [EvRetrieveOne p true]);
      [done..| |simpl; lia].
    destruct (decide (Type' p = "Datacenter")) as [Hty|Hty].
    + by eapply walks_dc; [apply received_no_content|].
    + by eapply walks_top; [apply received_no_content|..].
  - destruct (decide (Type' p = "Datacenter")) as [Hty|Hty]; simpl.
    + rewrite Hty. done.
    + unfold visit. simpl. repeat case_decide; try done; congruence.
Qed.

Lemma getParents_empty_answer_at_parent_witness :
  ∃ res,
    getParents muted 1 objUnderCluster ∅ =
      Some (res, <[P2 := res]> ∅,
            [EvCacheGet P2; EvRetrieveOne P2 true; EvCacheAdd P2 res]) ∧
    res = mkParents "NONE" "" "NONE".
Proof.
  apply (getParents_empty_answer_at_parent muted 0 objUnderCluster P2 ∅).
  - reflexivity.
  - apply lookup_empty.
  - vm_refl.
Defined.

Lemma walks_first_fetch remote p res entity exit t :
  walks remote p res entity exit t → ∃ ok t', t = EvRetrieveOne p ok :: t'.
Proof. destruct 1; by eexists _, _. Qed.

(** X24.  The error record is not cached: when a fetch failed during a
    resolution, the cache is as it was before, and the next resolution of an
    object with the same parent, whatever the inventory then answers, reads
    the cache, misses and fetches the parent again. *)
Theorem getParents_after_failure_fetches_again
    remote1 fuel1 me1 (c : CacheMap) res1 c1 t1 ref p
    remote2 fuel2 me2 res2 c2 t2 :
  Parent me1 = Some p →
  getParents remote1 fuel1 me1 c = Some (res1, c1, t1) →
  EvRetrieveOne ref false ∈ t1 →
  Parent me2 = Some p →
  getParents remote2 fuel2 me2 c1 = Some (res2, c2, t2) →
  c1 = c ∧ c1 !! p = None ∧
  ∃ ok t', t2 = EvCacheGet p :: EvRetrieveOne p ok :: t'.
Proof.
  intros Hp1 Hrun1 Hfail Hp2 Hrun2.
  apply getParents_inv in Hrun1
    as [(Hnone & _)|[(q & Hq & Hc & -> & ->)|[(q & tw & Hq & Hc & Hw & _ & -> & ->)
       |(q & tw & Hq & Hc & Hw & _ & -> & -> & ->)]]].
  - congruence.
  - by apply list_elem_of_singleton in Hfail.
  - apply elem_of_cons in Hfail as [[=]|Hfail].
    apply elem_of_app in Hfail as [Hfail|Hfail%list_elem_of_singleton]; [|done].
    by destruct (walks_break_no_failure _ _ _ _ _ _ Hw ref).
  - rewrite Hp1 in Hq. injection Hq as <-. split; [done|]. split; [done|].
    apply getParents_inv in Hrun2
      as [(Hnone & _)|[(q & Hq & Hc2 & _)|[(q & tw2 & Hq & _ & Hw2 & _ & _ & ->)
         |(q & tw2 & Hq & _ & Hw2 & _ & _ & _ & ->)]]].
    + congruence.
    + congruence.
    + rewrite Hp2 in Hq. injection Hq as <-.
      destruct (walks_first_fetch _ _ _ _ _ _ Hw2) as (ok & t' & ->).
      by eexists _, _.
    + rewrite Hp2 in Hq. injection Hq as <-.
      destruct (walks_first_fetch _ _ _ _ _ _ Hw2) as (ok & t' & ->).
      by eexists _, _.
Qed.

Lemma getParents_after_failure_fetches_again_witness :
  (∅ : CacheMap) = ∅ ∧ (∅ : CacheMap) !! P1 = None ∧
  ∃ ok t',
    [EvCacheGet P1; EvRetrieveOne P1 true; EvRetrieveOne P2 true;
     EvRetrieveOne P3 true; EvCacheAdd P1 scenarioParents]
      = EvCacheGet P1 :: EvRetrieveOne P1 ok :: t'.
Proof.
  apply (getParents_after_failure_fetches_again
           broken 3 objC ∅ errorParents ∅
           [EvCacheGet P1; EvRetrieveOne P1 true; EvRetrieveOne P2 true;
            EvRetrieveOne P3 false]
           P3 P1
           scenario 3 objD scenarioParents {[P1 := scenarioParents]}).
  - reflexivity.
  - vm_refl.
  - do 3 right. by left.
  - reflexivity.
  - vm_refl.
Defined.
